(** * Verification of the subscription engine of example-pubsub.go

    Source: [src/sub/subscriber.go] (the version with the shared
    semaphore) and the transport interface [aws.Client] of
    [src/unnamed/part_000].

    The Go program is embedded as follows.
    - [NewSubscriber] and [SetHandler] are pure functions on a
      [subscriber] record; the Go [error] result is the type [error].
    - [Subscribe] starts goroutines.  It is embedded as a transition
      system: a [State] holds the program counter of every goroutine
      together with the shared objects (the channel [chFatal], the
      semaphore channel, the wait groups), and [step] executes one
      statement of one goroutine.  Answers of the transport
      ([aws.Client]) are not computed by this program: they are carried
      by the [Action] that performs the call.
    - An execution is a list of actions ([run]); a property of
      [Subscribe] is proved for every execution from [Subscribe t], for
      every [t] that [NewSubscriber] and [SetHandler] can build.
    - The client of package aws ([src/unnamed/part_000]) and the
      publisher ([src/pub/publisher.go]) are sequential: a method is a
      function of the client (its two caches and their locks) and of
      the answers of the SDK, and gives the client afterwards, the
      result or the panic, and the requests sent to the SDK. *)

From stdpp Require Import base gmap list strings.
From Stdlib Require Import ZArith Lia.

Open Scope string_scope.
Open Scope list_scope.
Open Scope Z_scope.

(** ** Go values *)

(** The builtin interface [error]: [nil] or a value made by
    [errors.New]. *)
Inductive error : Type :=
| nil
| errors_New (msg : string).

Definition is_nil (e : error) : bool :=
  match e with nil => true | errors_New _ => false end.

(** [Handler func(id string, message *string) error].  A call either
    returns an [error] or panics; [Panics info] carries [fmt.Sprint] of
    the (non-nil) panic value.  A handler answers by its arguments
    alone; one that never returns is a call step that is never
    scheduled. *)
Inductive HandlerResult : Type :=
| Returns (err : error)
| Panics (info : string).

Definition Handler : Type := string → option string → HandlerResult.

(** [HandlerOption] and [SubscriberOption]; Go's [int] and [int64] are
    read as integers. *)
Record HandlerOption : Type := { WaitTime : Z }.
Record SubscriberOption : Type := { ConcurrencyMessageHandleLimit : Z }.

(** An entry of [t.handlers]: the fields [handler] and [option] (named
    [hoption] here, [option] being taken); the func value may be nil
    ([None]). *)
Record Binding : Type := {
  handler : option Handler;
  hoption : HandlerOption
}.

(** ** The transport records of package aws *)

Record ReceiveMessage : Type := {
  MessageID : string;
  ReceiptHandle : string;
  Body : option string
}.

Record ReceiveMessagesArgs : Type := { rm_QueueID : string }.

Record ReportFailureMessageArgs : Type := {
  rf_QueueID : string;
  rf_ReceiptHandle : string;
  rf_WaitTime : Z
}.

Record ReportSuccessMessageArgs : Type := {
  rs_QueueID : string;
  rs_ReceiptHandle : string
}.

(** ** Channels *)

(** A buffered [chan int]: its capacity and the queued values. *)
Record chan : Type := { chan_cap : nat; chan_buf : list Z }.

Definition make_chan (n : Z) : chan :=
  {| chan_cap := Z.to_nat n; chan_buf := [] |}.

(** [c <- v]: not possible (the sender blocks) while the buffer is full. *)
Definition chan_send (v : Z) (c : chan) : option chan :=
  if (length (chan_buf c) <? chan_cap c)%nat
  then Some {| chan_cap := chan_cap c; chan_buf := chan_buf c ++ [v] |}
  else None.

(** [<-c]: not possible (the receiver blocks) while the buffer is empty. *)
Definition chan_recv (c : chan) : option (Z * chan) :=
  match chan_buf c with
  | v :: rest => Some (v, {| chan_cap := chan_cap c; chan_buf := rest |})
  | [] => None
  end.

(** ** The subscriber *)

(** The struct [subscriber].  The field [client] is the environment and
    has no state of its own here. *)
Record subscriber : Type := {
  handlers : gmap string Binding;
  sub_option : SubscriberOption;
  semaphore : chan
}.

(** [NewSubscriber]: the pair (subscriber, error) of the Go function. *)
Definition NewSubscriber (opt : SubscriberOption) : option subscriber * error :=
  if ConcurrencyMessageHandleLimit opt <? 1
  then (None, errors_New "set 1 or more for ConcurrencyMessageHandleLimit")
  else (Some {| handlers := ∅;
                sub_option := opt;
                semaphore := make_chan (ConcurrencyMessageHandleLimit opt) |},
        nil).

(** [SetHandler]: the subscriber after the call and the returned error.
    The receiver is mutated in place in Go; here the new value is
    returned. *)
Definition SetHandler (queueName : string) (h : option Handler)
    (opt : HandlerOption) (t : subscriber) : subscriber * error :=
  if WaitTime opt <? 0
  then (t, errors_New "set 0 or more for WaitTime")
  else ({| handlers := <[queueName := {| handler := h; hoption := opt |}]> (handlers t);
           sub_option := sub_option t;
           semaphore := semaphore t |},
        nil).

(** ** The goroutines of [Subscribe]

    One record per goroutine, holding the variables of its closure and
    a program counter that names the statement it executes next.  The
    fields called history record the transport calls a goroutine has
    made; no statement reads them. *)

Inductive Tid : Type :=
| TidSpawner
| TidLoop (i : nat)
| TidTask (k : nat).

(** The calling goroutine: [return <-chFatal] (line 129). *)
Inductive MainPc : Type :=
| MReceiving
| MReturned (err : error).

(** The goroutine of lines 66-127.  [SpRange todo]: the [range] over
    [t.handlers] still has the entries [todo] to visit (Go fixes no
    order); with [todo] empty the goroutine has ended.  Its deferred
    [recover] (lines 67-71) acts on a panic of its own statements only;
    the transport calls are taken to return, so none occurs. *)
Inductive SpawnerPc : Type :=
| SpRange (todo : gmap string Binding)
| SpSendFatal (err : error)  (* line 75 *)
| SpExit.                    (* line 76 *)

(** The goroutine of lines 79-125, one per queue.  It defers no
    [recover]; none of its statements panics, the transport being taken
    to return and the entries of a batch to be non-nil. *)
Inductive LoopPc : Type :=
| LReceive                                      (* line 84 *)
| LSendFatal (err : error)                      (* line 88 *)
| LDispatch (wgMessage : nat) (rest : list ReceiveMessage)
                                                (* lines 93-123 *)
| LExit.                                        (* line 89 *)

Record Loop : Type := {
  l_queueName : string;   (* parameter queueName *)
  l_queueID : string;     (* parameter queueID *)
  l_id : string;          (* variable id of the enclosing iteration *)
  l_handler : Binding;    (* parameter handler *)
  l_pc : LoopPc;
  l_calls : list (ReceiveMessagesArgs * (list ReceiveMessage * error))
                          (* history: ReceiveMessages calls and answers *)
}.

(** The goroutine of lines 95-121, one per message. *)
Inductive TaskPc : Type :=
| TAcquire                   (* line 103 *)
| THandle                    (* line 105 *)
| TReportFailure             (* line 106 *)
| TReportSuccess             (* line 114 *)
| TSendFatal (err : error)   (* line 111 or 118 *)
| TRecover (info : string)   (* lines 97-98 *)
| TDone                      (* line 100 *)
| TRelease                   (* line 101 *)
| TExit.

Inductive Call : Type :=
| CallReportFailureMessage (args : ReportFailureMessageArgs) (ret : error)
| CallReportSuccessMessage (args : ReportSuccessMessageArgs) (ret : error).

Record Task : Type := {
  t_loop : nat;            (* the poll loop whose variables it captures *)
  t_wg : nat;              (* captured wgMessage, an address in [wgs] *)
  t_msg : ReceiveMessage;  (* parameter msg *)
  t_pc : TaskPc;
  t_calls : list Call      (* history: report calls and answers *)
}.

Record State : Type := {
  sub : subscriber;                  (* the receiver t *)
  main : MainPc;
  spawner : SpawnerPc;
  loops : list Loop;
  tasks : list Task;
  wgs : list nat;                    (* counters of the sync.WaitGroups *)
  resolved : list (string * (string * error));
                                     (* history: GetQueueID calls *)
  delivered : list (Tid * error)     (* history: values received from chFatal *)
}.

(** [Subscribe] right after its [go] statement (lines 65-66, 129). *)
Definition Subscribe (t : subscriber) : State :=
  {| sub := t; main := MReceiving; spawner := SpRange (handlers t);
     loops := []; tasks := []; wgs := []; resolved := []; delivered := [] |}.

(** ** Field updates *)

Definition set_spawner (pc : SpawnerPc) (s : State) : State :=
  {| sub := sub s; main := main s; spawner := pc; loops := loops s;
     tasks := tasks s; wgs := wgs s; resolved := resolved s;
     delivered := delivered s |}.

Definition set_loops (ls : list Loop) (s : State) : State :=
  {| sub := sub s; main := main s; spawner := spawner s; loops := ls;
     tasks := tasks s; wgs := wgs s; resolved := resolved s;
     delivered := delivered s |}.

Definition set_tasks (ts : list Task) (s : State) : State :=
  {| sub := sub s; main := main s; spawner := spawner s; loops := loops s;
     tasks := ts; wgs := wgs s; resolved := resolved s;
     delivered := delivered s |}.

Definition set_wgs (w : list nat) (s : State) : State :=
  {| sub := sub s; main := main s; spawner := spawner s; loops := loops s;
     tasks := tasks s; wgs := w; resolved := resolved s;
     delivered := delivered s |}.

Definition set_semaphore (c : chan) (s : State) : State :=
  {| sub := {| handlers := handlers (sub s); sub_option := sub_option (sub s);
               semaphore := c |};
     main := main s; spawner := spawner s; loops := loops s;
     tasks := tasks s; wgs := wgs s; resolved := resolved s;
     delivered := delivered s |}.

Definition log_resolved (queueName id : string) (err : error) (s : State) : State :=
  {| sub := sub s; main := main s; spawner := spawner s; loops := loops s;
     tasks := tasks s; wgs := wgs s;
     resolved := resolved s ++ [(queueName, (id, err))];
     delivered := delivered s |}.

Definition loop_at (pc : LoopPc) (l : Loop) : Loop :=
  {| l_queueName := l_queueName l; l_queueID := l_queueID l; l_id := l_id l;
     l_handler := l_handler l; l_pc := pc; l_calls := l_calls l |}.

Definition loop_called (args : ReceiveMessagesArgs)
    (ret : list ReceiveMessage * error) (pc : LoopPc) (l : Loop) : Loop :=
  {| l_queueName := l_queueName l; l_queueID := l_queueID l; l_id := l_id l;
     l_handler := l_handler l; l_pc := pc; l_calls := l_calls l ++ [(args, ret)] |}.

Definition task_at (pc : TaskPc) (t : Task) : Task :=
  {| t_loop := t_loop t; t_wg := t_wg t; t_msg := t_msg t; t_pc := pc;
     t_calls := t_calls t |}.

Definition task_called (c : Call) (pc : TaskPc) (t : Task) : Task :=
  {| t_loop := t_loop t; t_wg := t_wg t; t_msg := t_msg t; t_pc := pc;
     t_calls := t_calls t ++ [c] |}.

Definition set_loop (i : nat) (l : Loop) (s : State) : State :=
  set_loops (<[i := l]> (loops s)) s.

Definition set_task (k : nat) (t : Task) (s : State) : State :=
  set_tasks (<[k := t]> (tasks s)) s.

(** The channel [chFatal].
    [chFatal] is unbuffered and its only receiver is the calling
    goroutine, which receives once.  A send completes by handing the
    value to that receiver; after the receiver has returned every sender
    blocks. *)
Definition chFatal_send (from : Tid) (err : error) (s : State) : option State :=
  match main s with
  | MReceiving =>
      Some {| sub := sub s; main := MReturned err; spawner := spawner s;
              loops := loops s; tasks := tasks s; wgs := wgs s;
              resolved := resolved s;
              delivered := delivered s ++ [(from, err)] |}
  | MReturned _ => None
  end.

(** A call of the func value [handler.handler]: calling a nil func
    panics with a nil dereference. *)
Definition nil_dereference : string :=
  "runtime error: invalid memory address or nil pointer dereference".

Definition call_handler (h : option Handler) (id : string)
    (message : option string) : HandlerResult :=
  match h with
  | Some f => f id message
  | None => Panics nil_dereference
  end.

(** ** One statement of one goroutine *)

(** An [Action] names the goroutine that moves; where the statement is a
    transport call, it carries the values the call returns. *)
Inductive Action : Type :=
| AGetQueueID (queueName id : string) (err : error)
    (* spawner, lines 72-79 and 125: next entry of the range, the call,
       and on success the go statement *)
| ASpawnerSend                          (* lines 75-76 *)
| AReceiveMessages (i : nat) (res : list ReceiveMessage) (err : error)
                                        (* lines 84-92 *)
| ALoopSend (i : nat)                   (* lines 88-89 *)
| AGo (i : nat)                         (* lines 93-95: Add(1) and go *)
| AWait (i : nat)                       (* line 123 *)
| AAcquire (k : nat)                    (* line 103 *)
| AHandler (k : nat)                    (* line 105 *)
| AReport (k : nat) (err : error)       (* lines 106-110 or 114-117 *)
| ATaskSend (k : nat)                   (* lines 111-112, 118-119 or 97-99 *)
| AWgDone (k : nat)                     (* line 100 *)
| ARelease (k : nat).                   (* line 101 *)

Definition step_spawner_resolve (queueName id : string) (err : error)
    (s : State) : option State :=
  match spawner s with
  | SpRange todo =>
      match todo !! queueName with
      | Some h =>
          let s1 := log_resolved queueName id err s in
          if is_nil err
          then Some (set_spawner (SpRange (delete queueName todo))
                       (set_loops (loops s ++
                          [{| l_queueName := queueName; l_queueID := id;
                              l_id := id; l_handler := h; l_pc := LReceive;
                              l_calls := [] |}]) s1))
          else Some (set_spawner (SpSendFatal err) s1)
      | None => None
      end
  | _ => None
  end.

Definition step_spawner_send (s : State) : option State :=
  match spawner s with
  | SpSendFatal err => chFatal_send TidSpawner err (set_spawner SpExit s)
  | _ => None
  end.

Definition step_receive (i : nat) (res : list ReceiveMessage) (err : error)
    (s : State) : option State :=
  match loops s !! i with
  | Some l =>
      match l_pc l with
      | LReceive =>
          let args := {| rm_QueueID := l_queueID l |} in
          if is_nil err
          then Some (set_wgs (wgs s ++ [0%nat])
                       (set_loop i
                          (loop_called args (res, err)
                             (LDispatch (length (wgs s)) res) l) s))
          else Some (set_loop i (loop_called args (res, err) (LSendFatal err) l) s)
      | _ => None
      end
  | None => None
  end.

Definition step_loop_send (i : nat) (s : State) : option State :=
  match loops s !! i with
  | Some l =>
      match l_pc l with
      | LSendFatal err => chFatal_send (TidLoop i) err (set_loop i (loop_at LExit l) s)
      | _ => None
      end
  | None => None
  end.

Definition step_go (i : nat) (s : State) : option State :=
  match loops s !! i with
  | Some l =>
      match l_pc l with
      | LDispatch wg (msg :: rest) =>
          match wgs s !! wg with
          | Some n =>
              Some (set_tasks (tasks s ++
                      [{| t_loop := i; t_wg := wg; t_msg := msg;
                          t_pc := TAcquire; t_calls := [] |}])
                     (set_wgs (<[wg := S n]> (wgs s))
                        (set_loop i (loop_at (LDispatch wg rest) l) s)))
          | None => None
          end
      | _ => None
      end
  | None => None
  end.

(** [wgMessage.Wait()] returns once the counter is zero. *)
Definition step_wait (i : nat) (s : State) : option State :=
  match loops s !! i with
  | Some l =>
      match l_pc l with
      | LDispatch wg [] =>
          match wgs s !! wg with
          | Some O => Some (set_loop i (loop_at LReceive l) s)
          | _ => None
          end
      | _ => None
      end
  | None => None
  end.

Definition step_acquire (k : nat) (s : State) : option State :=
  match tasks s !! k with
  | Some t =>
      match t_pc t with
      | TAcquire =>
          match chan_send 1 (semaphore (sub s)) with
          | Some c => Some (set_semaphore c (set_task k (task_at THandle t) s))
          | None => None
          end
      | _ => None
      end
  | None => None
  end.

(** Lines 105-106 and 114: the branch taken on the handler's result; a
    panic unwinds to the deferred function, where [recover] catches it. *)
Definition after_handler (r : HandlerResult) : TaskPc :=
  match r with
  | Returns err => if is_nil err then TReportSuccess else TReportFailure
  | Panics info => TRecover info
  end.

Definition handler_result (b : Binding) (msg : ReceiveMessage) : HandlerResult :=
  call_handler (handler b) (MessageID msg) (Body msg).

Definition step_handler (k : nat) (s : State) : option State :=
  match tasks s !! k with
  | Some t =>
      match t_pc t, loops s !! t_loop t with
      | THandle, Some l =>
          Some (set_task k
                  (task_at (after_handler (handler_result (l_handler l) (t_msg t))) t) s)
      | _, _ => None
      end
  | None => None
  end.

(** After a report the function returns (or sends [err] first); the
    deferred function then finds nothing to recover and goes on to
    [wgMessage.Done()]. *)
Definition after_report (err : error) : TaskPc :=
  if is_nil err then TDone else TSendFatal err.

Definition step_report (k : nat) (err : error) (s : State) : option State :=
  match tasks s !! k with
  | Some t =>
      match t_pc t, loops s !! t_loop t with
      | TReportFailure, Some l =>
          let args := {| rf_QueueID := l_id l;
                         rf_ReceiptHandle := ReceiptHandle (t_msg t);
                         rf_WaitTime := WaitTime (hoption (l_handler l)) |} in
          Some (set_task k
                  (task_called (CallReportFailureMessage args err)
                     (after_report err) t) s)
      | TReportSuccess, Some l =>
          let args := {| rs_QueueID := l_id l;
                         rs_ReceiptHandle := ReceiptHandle (t_msg t) |} in
          Some (set_task k
                  (task_called (CallReportSuccessMessage args err)
                     (after_report err) t) s)
      | _, _ => None
      end
  | None => None
  end.

Definition step_task_send (k : nat) (s : State) : option State :=
  match tasks s !! k with
  | Some t =>
      match t_pc t with
      | TSendFatal err =>
          chFatal_send (TidTask k) err (set_task k (task_at TDone t) s)
      | TRecover info =>
          chFatal_send (TidTask k) (errors_New info)
            (set_task k (task_at TDone t) s)
      | _ => None
      end
  | None => None
  end.

(** [wgMessage.Done()].  On a zero counter Go panics inside the deferred
    function; no step is given for it, and [wg_done_enabled] below shows
    the counter is positive whenever a task is here. *)
Definition step_wg_done (k : nat) (s : State) : option State :=
  match tasks s !! k with
  | Some t =>
      match t_pc t with
      | TDone =>
          match wgs s !! t_wg t with
          | Some (S n) =>
              Some (set_wgs (<[t_wg t := n]> (wgs s))
                      (set_task k (task_at TRelease t) s))
          | _ => None
          end
      | _ => None
      end
  | None => None
  end.

Definition step_release (k : nat) (s : State) : option State :=
  match tasks s !! k with
  | Some t =>
      match t_pc t with
      | TRelease =>
          match chan_recv (semaphore (sub s)) with
          | Some (_, c) => Some (set_semaphore c (set_task k (task_at TExit t) s))
          | None => None
          end
      | _ => None
      end
  | None => None
  end.

(** [step a s] is [None] when the goroutine named by [a] is not at that
    statement or the statement blocks. *)
Definition step (a : Action) (s : State) : option State :=
  match a with
  | AGetQueueID queueName id err => step_spawner_resolve queueName id err s
  | ASpawnerSend => step_spawner_send s
  | AReceiveMessages i res err => step_receive i res err s
  | ALoopSend i => step_loop_send i s
  | AGo i => step_go i s
  | AWait i => step_wait i s
  | AAcquire k => step_acquire k s
  | AHandler k => step_handler k s
  | AReport k err => step_report k err s
  | ATaskSend k => step_task_send k s
  | AWgDone k => step_wg_done k s
  | ARelease k => step_release k s
  end.

(** An execution: the actions of a schedule, one after the other. *)
Fixpoint run (sched : list Action) (s : State) : option State :=
  match sched with
  | [] => Some s
  | a :: rest =>
      match step a s with
      | Some s' => run rest s'
      | None => None
      end
  end.

(** ** Subscribers the program can build *)

Inductive built : subscriber → Prop :=
| built_new opt t : NewSubscriber opt = (Some t, nil) → built t
| built_set queueName h opt t :
    built t → built (SetHandler queueName h opt t).1.

(** ** Positions of a dispatch task *)

(** The handler invocation of the task is in progress. *)
Definition executing (t : Task) : bool :=
  match t_pc t with THandle => true | _ => false end.

(** The task has sent to the semaphore and not yet received from it. *)
Definition holds_permit (t : Task) : bool :=
  match t_pc t with TAcquire | TExit => false | _ => true end.

(** The task has not yet called [wgMessage.Done()]. *)
Definition pending (t : Task) : bool :=
  match t_pc t with TRelease | TExit => false | _ => true end.

Definition pending_on (wg : nat) (t : Task) : bool :=
  pending t && Nat.eqb (t_wg t) wg.

Fixpoint count {A : Type} (P : A → bool) (l : list A) : nat :=
  match l with
  | [] => O
  | x :: l' => ((if P x then 1 else 0) + count P l')%nat
  end.

(** ** Invariants of the executions of [Subscribe] *)

(** The semaphore holds one value per task between its send and its
    receive, and never more than its capacity. *)
Definition sem_inv (s : State) : Prop :=
  length (chan_buf (semaphore (sub s))) = count holds_permit (tasks s) ∧
  (length (chan_buf (semaphore (sub s))) ≤ chan_cap (semaphore (sub s)))%nat.

(** While a poll loop dispatches, its pending tasks are those of the
    current wait group; otherwise it has none. *)
Definition loop_wg_ok (s : State) (i : nat) (l : Loop) : Prop :=
  match l_pc l with
  | LDispatch wg _ =>
      (wg < length (wgs s))%nat ∧
      ∀ k t, tasks s !! k = Some t → t_loop t = i → pending t = true →
             t_wg t = wg
  | _ => ∀ k t, tasks s !! k = Some t → t_loop t = i → pending t = false
  end.

(** Every wait group counts the pending tasks that hold it. *)
Definition wg_inv (s : State) : Prop :=
  (∀ a n, wgs s !! a = Some n → n = count (pending_on a) (tasks s)) ∧
  (∀ k t, tasks s !! k = Some t →
     (t_wg t < length (wgs s))%nat ∧ (t_loop t < length (loops s))%nat) ∧
  (∀ i l, loops s !! i = Some l → loop_wg_ok s i l).

(** The report call the specification prescribes for a message once its
    handler has returned: success is reported with the receipt handle
    and the queue's identifier, failure also with the registered wait
    time; after a panic there is none. *)
Definition prescribed_report (b : Binding) (id : string)
    (msg : ReceiveMessage) (ret : error) : option Call :=
  match handler_result b msg with
  | Returns nil =>
      Some (CallReportSuccessMessage
              {| rs_QueueID := id; rs_ReceiptHandle := ReceiptHandle msg |} ret)
  | Returns (errors_New _) =>
      Some (CallReportFailureMessage
              {| rf_QueueID := id; rf_ReceiptHandle := ReceiptHandle msg;
                 rf_WaitTime := WaitTime (hoption b) |} ret)
  | Panics _ => None
  end.

(** What the position of a task says about its handler's result and
    about the report calls it has made. *)
Definition task_ok (b : Binding) (id : string) (t : Task) : Prop :=
  match t_pc t with
  | TAcquire | THandle => t_calls t = []
  | TReportFailure =>
      t_calls t = [] ∧ ∃ m, handler_result b (t_msg t) = Returns (errors_New m)
  | TReportSuccess =>
      t_calls t = [] ∧ handler_result b (t_msg t) = Returns nil
  | TRecover info =>
      t_calls t = [] ∧ handler_result b (t_msg t) = Panics info
  | TSendFatal err =>
      err ≠ nil ∧
      ∃ c, prescribed_report b id (t_msg t) err = Some c ∧ t_calls t = [c]
  | TDone | TRelease | TExit =>
      (∃ info, handler_result b (t_msg t) = Panics info ∧ t_calls t = []) ∨
      (∃ ret c, prescribed_report b id (t_msg t) ret = Some c ∧ t_calls t = [c])
  end.

Definition tasks_inv (s : State) : Prop :=
  ∀ k t, tasks s !! k = Some t →
    ∃ l, loops s !! t_loop t = Some l ∧ task_ok (l_handler l) (l_id l) t.

(** The variables of a poll loop's closure never change. *)
Definition same_closure (l l' : Loop) : Prop :=
  l_queueName l' = l_queueName l ∧ l_queueID l' = l_queueID l ∧
  l_id l' = l_id l ∧ l_handler l' = l_handler l.

(** The answer of a report call. *)
Definition call_ret (c : Call) : error :=
  match c with
  | CallReportFailureMessage _ ret => ret
  | CallReportSuccessMessage _ ret => ret
  end.

(** A poll loop holds the registered binding of its queue and the
    identifier its name was resolved to, and receives with it. *)
Definition loop_ok (s : State) (l : Loop) : Prop :=
  handlers (sub s) !! l_queueName l = Some (l_handler l) ∧
  l_queueID l = l_id l ∧
  (l_queueName l, (l_id l, nil)) ∈ resolved s ∧
  (∀ args ret, (args, ret) ∈ l_calls l → rm_QueueID args = l_id l).

(** The entries still to visit are registered and not yet resolved; an
    error the spawner sends is the answer of its last resolution. *)
Definition spawner_ok (s : State) : Prop :=
  match spawner s with
  | SpRange todo =>
      ∀ q b, todo !! q = Some b →
        handlers (sub s) !! q = Some b ∧ q ∉ (resolved s).*1
  | SpSendFatal err =>
      err ≠ nil ∧ ∃ q id, last (resolved s) = Some (q, (id, err))
  | SpExit => True
  end.

Definition registry_inv (s : State) : Prop :=
  NoDup (resolved s).*1 ∧
  NoDup (l_queueName <$> loops s) ∧
  (∀ i l, loops s !! i = Some l → loop_ok s l) ∧
  spawner_ok s.

(** The messages still to dispatch are the end of the last batch; an
    error a poll loop sends is the answer of its last receive. *)
Definition loop_pc_ok (l : Loop) : Prop :=
  match l_pc l with
  | LDispatch _ rest =>
      ∃ args res pre,
        last (l_calls l) = Some (args, (res, nil)) ∧ res = pre ++ rest
  | LSendFatal err =>
      err ≠ nil ∧ ∃ args res, last (l_calls l) = Some (args, (res, err))
  | _ => True
  end.

(** [msg] is in a batch the poll loop [l] received. *)
Definition fetched (l : Loop) (msg : ReceiveMessage) : Prop :=
  ∃ args res, (args, (res, nil)) ∈ l_calls l ∧ msg ∈ res.

Definition fetch_inv (s : State) : Prop :=
  (∀ i l, loops s !! i = Some l → loop_pc_ok l) ∧
  (∀ k t, tasks s !! k = Some t →
     ∃ l, loops s !! t_loop t = Some l ∧ fetched l (t_msg t)).

(** The task has left the body of its function and is past every send
    on [chFatal]. *)
Definition past_sends (t : Task) : bool :=
  match t_pc t with TDone | TRelease | TExit => true | _ => false end.

(** Where a value received from [chFatal] comes from: a transport call
    of the sending goroutine that returned it, or a panic the sending
    task recovered. *)
Definition origin (s : State) (tid : Tid) (e : error) : Prop :=
  match tid with
  | TidSpawner =>
      spawner s = SpExit ∧ ∃ q id, last (resolved s) = Some (q, (id, e))
  | TidLoop i =>
      ∃ l args res, loops s !! i = Some l ∧ l_pc l = LExit ∧
                    last (l_calls l) = Some (args, (res, e))
  | TidTask k =>
      ∃ t l, tasks s !! k = Some t ∧ loops s !! t_loop t = Some l ∧
             past_sends t = true ∧
             ((∃ info, handler_result (l_handler l) (t_msg t) = Panics info ∧
                       e = errors_New info) ∨
              (∃ c, t_calls t = [c] ∧ call_ret c = e))
  end.

(** [Subscribe] has returned exactly when one value has been received,
    and it returned that value. *)
Definition delivery_inv (s : State) : Prop :=
  match main s with
  | MReceiving => delivered s = []
  | MReturned e => ∃ tid, delivered s = [(tid, e)]
  end ∧
  ∀ tid e, (tid, e) ∈ delivered s → e ≠ nil ∧ origin s tid e.

(** The goroutine [tid] is at a send of [e] on [chFatal]. *)
Definition sending (s : State) (tid : Tid) (e : error) : Prop :=
  match tid with
  | TidSpawner => spawner s = SpSendFatal e
  | TidLoop i => ∃ l, loops s !! i = Some l ∧ l_pc l = LSendFatal e
  | TidTask k =>
      ∃ t, tasks s !! k = Some t ∧
           (t_pc t = TSendFatal e ∨
            ∃ info, t_pc t = TRecover info ∧ e = errors_New info)
  end.

(** The messages the poll loop [i] has handed to dispatch tasks, in the
    order of the [go] statements. *)
Fixpoint dispatched (i : nat) (ts : list Task) : list ReceiveMessage :=
  match ts with
  | [] => []
  | t :: ts' =>
      if Nat.eqb (t_loop t) i then t_msg t :: dispatched i ts'
      else dispatched i ts'
  end.

(** The messages of all batches a poll loop has received. *)
Fixpoint received (calls : list (ReceiveMessagesArgs * (list ReceiveMessage * error)))
    : list ReceiveMessage :=
  match calls with
  | [] => []
  | (_, (res, err)) :: calls' =>
      (if is_nil err then res else []) ++ received calls'
  end.

(** The messages of the current batch still to be dispatched. *)
Definition undispatched (l : Loop) : list ReceiveMessage :=
  match l_pc l with LDispatch _ rest => rest | _ => [] end.

(** The received messages of a poll loop are its dispatched ones
    followed by those still to dispatch. *)
Definition dispatch_inv (s : State) : Prop :=
  ∀ i l, loops s !! i = Some l →
    received (l_calls l) = dispatched i (tasks s) ++ undispatched l.

Definition Inv (s : State) : Prop :=
  sem_inv s ∧ wg_inv s ∧ tasks_inv s ∧ registry_inv s ∧ fetch_inv s ∧
  delivery_inv s ∧ dispatch_inv s.

(** ** Example data *)

Definition ex_ok : Handler := λ _ _, Returns nil.
Definition ex_reject : Handler := λ _ _, Returns (errors_New "rejected").

Definition ex_new (limit : Z) : subscriber :=
  {| handlers := ∅;
     sub_option := {| ConcurrencyMessageHandleLimit := limit |};
     semaphore := make_chan limit |}.

(** Queue "A" acknowledges, queue "B" rejects with a wait time of 30. *)
Definition ex_sub : subscriber :=
  (SetHandler "B" (Some ex_reject) {| WaitTime := 30 |}
     (SetHandler "A" (Some ex_ok) {| WaitTime := 0 |} (ex_new 1)).1).1.

Definition ex_m1 : ReceiveMessage :=
  {| MessageID := "m1"; ReceiptHandle := "r1"; Body := Some "x" |}.
Definition ex_m2 : ReceiveMessage :=
  {| MessageID := "m2"; ReceiptHandle := "r2"; Body := None |}.

(** The state an execution of [Subscribe t] ends in. *)
Definition final (sched : list Action) (t : subscriber) : State :=
  default (Subscribe t) (run sched (Subscribe t)).

(** Both loops run; the message of "A" is in its handler, the message
    of "B" waits for the permit. *)
Definition ex_sched_busy : list Action :=
  [AGetQueueID "A" "urlA" nil; AGetQueueID "B" "urlB" nil;
   AReceiveMessages 0 [ex_m1] nil; AReceiveMessages 1 [ex_m2] nil;
   AGo 0; AGo 1; AAcquire 0].

(** Queue "B" alone: its message is rejected, the failure is reported,
    and the loop is back at its receive. *)
Definition ex_sched_round : list Action :=
  [AGetQueueID "B" "urlB" nil; AReceiveMessages 0 [ex_m2] nil; AGo 0;
   AAcquire 0; AHandler 0; AReport 0 nil; AWgDone 0; ARelease 0; AWait 0].

(** ** Notions the properties are stated with *)

(** The task is past its report call (or past the point where one could
    be made). *)
Definition report_made (t : Task) : bool :=
  match t_pc t with
  | TSendFatal _ | TDone | TRelease | TExit => true
  | _ => false
  end.

(** A terminal outcome of a dispatch task: it is past
    [wgMessage.Done()], and either its report call has completed or its
    panic was recovered. *)
Definition terminal (b : Binding) (t : Task) : Prop :=
  pending t = false ∧
  ((∃ c, t_calls t = [c]) ∨
   (∃ info, handler_result b (t_msg t) = Panics info ∧ t_calls t = [])).


(** Queue "A" acknowledges; queue "N" is registered with a nil func. *)
Definition ex_sub_nil : subscriber :=
  (SetHandler "N" None {| WaitTime := 0 |}
     (SetHandler "A" (Some ex_ok) {| WaitTime := 0 |} (ex_new 1)).1).1.

(** The receive of "A" fails and [Subscribe] returns that error; then a
    message of "N" is dispatched and its task panics on the nil func. *)
Definition ex_sched_nil : list Action :=
  [AGetQueueID "A" "urlA" nil; AGetQueueID "N" "urlN" nil;
   AReceiveMessages 0 [] (errors_New "network down"); ALoopSend 0;
   AReceiveMessages 1 [ex_m1] nil; AGo 1; AAcquire 0; AHandler 0].

(** The receive of "A" fails, the resolution of "B" fails while
    [Subscribe] still waits, and the poll loop of "A" sends first. *)
Definition ex_sched_stuck : list Action :=
  [AGetQueueID "A" "urlA" nil;
   AReceiveMessages 0 [] (errors_New "network down");
   AGetQueueID "B" "" (errors_New "no such queue");
   ALoopSend 0].

(** The spawner has stopped on [err]: it is at its send, or it has
    returned after [err] was received. *)
Definition spawner_stopped (s : State) (err : error) : Prop :=
  spawner s = SpSendFatal err ∨
  (spawner s = SpExit ∧ (TidSpawner, err) ∈ delivered s).

(** The poll loop of "B" and its dispatch task at the end of
    [ex_sched_round]. *)
Definition ex_round_loop : Loop :=
  {| l_queueName := "B"; l_queueID := "urlB"; l_id := "urlB";
     l_handler := {| handler := Some ex_reject;
                     hoption := {| WaitTime := 30 |} |};
     l_pc := LReceive;
     l_calls := [({| rm_QueueID := "urlB" |}, ([ex_m2], nil))] |}.

Definition ex_round_task : Task :=
  {| t_loop := 0; t_wg := 0; t_msg := ex_m2; t_pc := TExit;
     t_calls := [CallReportFailureMessage
                   {| rf_QueueID := "urlB"; rf_ReceiptHandle := "r2";
                      rf_WaitTime := 30 |} nil] |}.

(** The poll loop of "N" and its dispatch task at the end of
    [ex_sched_nil]. *)
Definition ex_nil_loop : Loop :=
  {| l_queueName := "N"; l_queueID := "urlN"; l_id := "urlN";
     l_handler := {| handler := None; hoption := {| WaitTime := 0 |} |};
     l_pc := LDispatch 0 [];
     l_calls := [({| rm_QueueID := "urlN" |}, ([ex_m1], nil))] |}.

Definition ex_nil_task : Task :=
  {| t_loop := 1; t_wg := 0; t_msg := ex_m1;
     t_pc := TRecover nil_dereference; t_calls := [] |}.

(** [ex_sched_stuck] up to the failing resolution of "B". *)
Definition ex_sched_before : list Action :=
  [AGetQueueID "A" "urlA" nil;
   AReceiveMessages 0 [] (errors_New "network down")].

Definition ex_sched_failed : list Action :=
  ex_sched_before ++ [AGetQueueID "B" "" (errors_New "no such queue")].

(** Queue "A" alone up to the permit: the task of [ex_m1] is at its
    handler call. *)
Definition ex_sched_ack : list Action :=
  [AGetQueueID "A" "urlA" nil; AReceiveMessages 0 [ex_m1] nil; AGo 0;
   AAcquire 0].

Definition ex_ack_loop : Loop :=
  {| l_queueName := "A"; l_queueID := "urlA"; l_id := "urlA";
     l_handler := {| handler := Some ex_ok; hoption := {| WaitTime := 0 |} |};
     l_pc := LDispatch 0 [];
     l_calls := [({| rm_QueueID := "urlA" |}, ([ex_m1], nil))] |}.

Definition ex_ack_task : Task :=
  {| t_loop := 0; t_wg := 0; t_msg := ex_m1; t_pc := THandle; t_calls := [] |}.

(** Queue "B" alone up to the permit: the task of [ex_m2] is at its
    handler call. *)
Definition ex_sched_nack : list Action :=
  [AGetQueueID "B" "urlB" nil; AReceiveMessages 0 [ex_m2] nil; AGo 0;
   AAcquire 0].

Definition ex_nack_loop : Loop :=
  {| l_queueName := "B"; l_queueID := "urlB"; l_id := "urlB";
     l_handler := {| handler := Some ex_reject;
                     hoption := {| WaitTime := 30 |} |};
     l_pc := LDispatch 0 [];
     l_calls := [({| rm_QueueID := "urlB" |}, ([ex_m2], nil))] |}.

Definition ex_nack_task : Task :=
  {| t_loop := 0; t_wg := 0; t_msg := ex_m2; t_pc := THandle; t_calls := [] |}.

(** The handler of "B" rejects, the report of the failure is refused by
    the transport, and the task delivers that refusal. *)
Definition ex_sched_nack_refused : list Action :=
  ex_sched_nack ++
  [AHandler 0; AReport 0 (errors_New "throttled"); ATaskSend 0].

Definition ex_refused_task : Task :=
  {| t_loop := 0; t_wg := 0; t_msg := ex_m2; t_pc := TDone;
     t_calls := [CallReportFailureMessage
                   {| rf_QueueID := "urlB"; rf_ReceiptHandle := "r2";
                      rf_WaitTime := 30 |} (errors_New "throttled")] |}.

(** Queue "A" resolved, its poll loop at its first receive. *)
Definition ex_sched_started : list Action := [AGetQueueID "A" "urlA" nil].

Definition ex_started_loop : Loop :=
  {| l_queueName := "A"; l_queueID := "urlA"; l_id := "urlA";
     l_handler := {| handler := Some ex_ok; hoption := {| WaitTime := 0 |} |};
     l_pc := LReceive; l_calls := [] |}.

(** The handler of "B" has rejected [ex_m2]: the task is at its
    [ReportFailureMessage] call. *)
Definition ex_sched_rejected : list Action := ex_sched_nack ++ [AHandler 0].

Definition ex_rejected_task : Task :=
  {| t_loop := 0; t_wg := 0; t_msg := ex_m2; t_pc := TReportFailure;
     t_calls := [] |}.

(** The transport call [call] of the goroutine [tid] returns the error
    [e] in state [s]: the call itself delivers nothing and takes [tid]
    to its send of [e] on [chFatal]; while [Subscribe] waits, that send
    [send] completes and [Subscribe] returns [e]. *)
Definition fails_fatally (s : State) (call send : Action) (tid : Tid)
    (e : error) : Prop :=
  ∃ s1, step call s = Some s1 ∧ sending s1 tid e ∧
        main s1 = main s ∧ delivered s1 = delivered s ∧
        (main s = MReceiving →
         ∃ s2, step send s1 = Some s2 ∧ main s2 = MReturned e ∧
               delivered s2 = [(tid, e)]).

(** ** Further notions of the executions of [Subscribe] *)

(** The position [pc] of a poll loop is past a failed receive. *)
Definition loop_stopped (pc : LoopPc) : bool :=
  match pc with LSendFatal _ | LExit => true | _ => false end.

(** While the spawner ranges over [t.handlers], every registered queue
    is still to visit or has its poll loop. *)
Definition coverage_inv (s : State) : Prop :=
  match spawner s with
  | SpRange todo =>
      ∀ q b, handlers (sub s) !! q = Some b →
        todo !! q = Some b ∨ ∃ i l, loops s !! i = Some l ∧ l_queueName l = q
  | _ => True
  end.

(** ** Package aws: the client

    The SDK handles ([session], [sns], [sqs]) are the environment: a
    call of the SDK is recorded with its request, and its answer is an
    argument of the function that makes it. *)

Record ProviderOption : Type := {
  AWSAccessKey : string;
  AWSSecretKey : string;
  AWSRegion : string
}.

(** The struct [client]: the two [sync.Map] caches and their locks. *)
Record client : Type := {
  client_opt : ProviderOption;
  topics : gmap string string;
  topicsGettingLock : chan;
  queues : gmap string string;
  queuesGettingLock : chan
}.

(** A call of a function that may panic. *)
Inductive Result (A : Type) : Type :=
| Returned (a : A)
| Panicked (info : string).
Arguments Returned {A} a.
Arguments Panicked {A} info.

(** The requests sent to the SDK. *)
Inductive SdkCall : Type :=
| sqs_GetQueueUrl (QueueName : string)
| sns_ListTopics (NextToken : option string)
| sns_Publish (TopicArn Subject Message : string)
| sqs_SendMessage (QueueUrl MessageBody : string)
| sqs_ReceiveMessage (QueueUrl : string)
    (MaxNumberOfMessages WaitTimeSeconds : Z)
| sqs_ChangeMessageVisibility (QueueUrl ReceiptHandle : string)
    (VisibilityTimeout : Z)
| sqs_DeleteMessage (QueueUrl ReceiptHandle : string).

(** [strings.Join]. *)
Fixpoint strings_Join (elems : list string) (sep : string) : string :=
  match elems with
  | [] => ""
  | x :: rest =>
      match rest with
      | [] => x
      | _ => String.append x (String.append sep (strings_Join rest sep))
      end
  end.

(** [strings.Split] for a separator of one byte: the substrings between
    the separators, one more than there are separators. *)
Fixpoint strings_Split (s : string) (sep : Ascii.ascii) : list string :=
  match s with
  | EmptyString => [EmptyString]
  | String c s' =>
      if Ascii.eqb c sep then EmptyString :: strings_Split s' sep
      else match strings_Split s' sep with
           | seg :: rest => String c seg :: rest
           | [] => [String c EmptyString]
           end
  end.

(** The bytes of a colon and of a line feed. *)
Section Bytes.
Import Stdlib.Strings.Ascii.
Definition colon : Ascii.ascii := ":"%char.
Definition newline_byte : Ascii.ascii := "010"%char.
End Bytes.

Definition newline : string := String newline_byte EmptyString.

(** [valid] of [ProviderOption], lines 107-122. *)
Definition ProviderOption_valid (t : ProviderOption) : error :=
  let slice := [] in
  let slice := if String.eqb (AWSAccessKey t) ""
               then slice ++ ["AWSAccessKey is required."] else slice in
  let slice := if String.eqb (AWSSecretKey t) ""
               then slice ++ ["AWSSecretKey is required."] else slice in
  let slice := if String.eqb (AWSRegion t) ""
               then slice ++ ["AWSRegion is required."] else slice in
  if (0 <? length slice)%nat
  then errors_New (strings_Join slice newline)
  else nil.

(** [NewClient], lines 83-105; [NewSession] is the error
    [session.NewSession] answers with. *)
Definition NewClient (opt : ProviderOption) (NewSession : error)
    : option client * error :=
  let err := ProviderOption_valid opt in
  if negb (is_nil err) then (None, err)
  else
    let err := NewSession in
    if negb (is_nil err) then (None, err)
    else (Some {| client_opt := opt;
                  topics := ∅;
                  topicsGettingLock := make_chan 1;
                  queues := ∅;
                  queuesGettingLock := make_chan 1 |},
          nil).

Definition set_queues (m : gmap string string) (lock : chan) (t : client)
    : client :=
  {| client_opt := client_opt t; topics := topics t;
     topicsGettingLock := topicsGettingLock t;
     queues := m; queuesGettingLock := lock |}.

Definition set_topics (m : gmap string string) (lock : chan) (t : client)
    : client :=
  {| client_opt := client_opt t; topics := m; topicsGettingLock := lock;
     queues := queues t; queuesGettingLock := queuesGettingLock t |}.

(** What a method of the client gives: [None] while it is blocked (on a
    lock, or on an answer the service has not given); otherwise the
    client after the call, the result, and the SDK calls made. *)
Definition Outcome (A : Type) : Type :=
  option (client * Result A * list SdkCall).

(** The deferred [<-lock] of [GetQueueID] and [GetTopicID]: it runs on
    every way out of the function, a panic included. *)
Definition release (lock : chan) : option chan :=
  match chan_recv lock with
  | Some (_, c) => Some c
  | None => None
  end.

(** Lines 163-176 of [GetQueueID], run with the lock held: the cache
    afterwards, the result and the SDK calls.  [GetQueueUrl] is the
    answer of [t.sqs.GetQueueUrl]: the field [QueueUrl] of the response
    (a pointer, [None] when nil) and the error. *)
Definition GetQueueID_locked (name : string)
    (GetQueueUrl : option string * error) (m : gmap string string)
    : gmap string string * Result (string * error) * list SdkCall :=
  match m !! name with
  | Some value => (m, Returned (value, nil), [])
  | None =>
      let (QueueUrl, err) := GetQueueUrl in
      let calls := [sqs_GetQueueUrl name] in
      if negb (is_nil err) then (m, Returned ("", err), calls)
      else
        match QueueUrl with
        | None => (m, Panicked nil_dereference, calls)
        | Some url =>
            let m := <[name := url]> m in
            match m !! name with
            | Some value => (m, Returned (value, nil), calls)
            | None =>
                (m, Returned ("", errors_New
                                    (String.append "There is no queue named "
                                       name)),
                 calls)
            end
        end
  end.

(** [GetQueueID] of [client], lines 157-177: the first look-up, the
    lock, the body, and the deferred release. *)
Definition client_GetQueueID (name : string)
    (GetQueueUrl : option string * error) (t : client)
    : Outcome (string * error) :=
  match queues t !! name with
  | Some value => Some (t, Returned (value, nil), [])
  | None =>
      match chan_send 1 (queuesGettingLock t) with
      | None => None
      | Some locked =>
          let '(m, r, calls) := GetQueueID_locked name GetQueueUrl (queues t) in
          match release locked with
          | Some lock => Some (set_queues m lock t, r, calls)
          | None => None
          end
      end
  end.

(** The response of [sns.ListTopics]: the [TopicArn] pointers of its
    topics and the token of the next page. *)
Record ListTopicsOutput : Type := {
  Topics : list (option string);
  NextToken : option string
}.

Definition index_out_of_range : string :=
  "runtime error: index out of range [-1]".

(** Lines 141-146: the topics of one page are stored under the last
    segment of their ARN.  The second component is the panic, if one
    occurred; what was stored before it stays stored. *)
Fixpoint store_topics (tps : list (option string)) (m : gmap string string)
    : gmap string string * option string :=
  match tps with
  | [] => (m, None)
  | topic :: rest =>
      match topic with
      | None => (m, Some nil_dereference)
      | Some arn =>
          let slice := strings_Split arn colon in
          match slice !! (length slice - 1)%nat with
          | None => (m, Some index_out_of_range)
          | Some name => store_topics rest (<[name := arn]> m)
          end
      end
  end.

(** Lines 134-149: the paging loop.  [answers] are the answers of the
    service to the successive [ListTopics] calls; with none left the
    call is pending.  The result is the error of the [return] inside
    the loop, or nil when the loop ends. *)
Fixpoint list_topics (answers : list (ListTopicsOutput * error))
    (nextToken : option string) (first : bool) (m : gmap string string)
    (calls : list SdkCall)
    : option (gmap string string * Result error * list SdkCall) :=
  if negb (bool_decide (nextToken ≠ None) || first)
  then Some (m, Returned nil, calls)
  else
    match answers with
    | [] => None
    | (resp, err) :: answers' =>
        let calls := calls ++ [sns_ListTopics nextToken] in
        if negb (is_nil err) then Some (m, Returned err, calls)
        else
          match store_topics (Topics resp) m with
          | (m', Some info) => Some (m', Panicked info, calls)
          | (m', None) => list_topics answers' (NextToken resp) false m' calls
          end
    end.

(** Lines 130-154 of [GetTopicID], run with the lock held; [None]
    while an answer of the service is pending. *)
Definition GetTopicID_locked (name : string)
    (answers : list (ListTopicsOutput * error)) (m : gmap string string)
    : option (gmap string string * Result (string * error) * list SdkCall) :=
  match m !! name with
  | Some value => Some (m, Returned (value, nil), [])
  | None =>
      match list_topics answers None true m [] with
      | None => None
      | Some (m, Panicked info, calls) => Some (m, Panicked info, calls)
      | Some (m, Returned err, calls) =>
          if negb (is_nil err) then Some (m, Returned ("", err), calls)
          else
            match m !! name with
            | Some value => Some (m, Returned (value, nil), calls)
            | None =>
                Some (m, Returned ("", errors_New
                                         (String.append
                                            "There is no topic named " name)),
                      calls)
            end
      end
  end.

(** [GetTopicID] of [client], lines 124-155. *)
Definition client_GetTopicID (name : string)
    (answers : list (ListTopicsOutput * error)) (t : client)
    : Outcome (string * error) :=
  match topics t !! name with
  | Some value => Some (t, Returned (value, nil), [])
  | None =>
      match chan_send 1 (topicsGettingLock t) with
      | None => None
      | Some locked =>
          match GetTopicID_locked name answers (topics t) with
          | None => None
          | Some (m, r, calls) =>
              match release locked with
              | Some lock => Some (set_topics m lock t, r, calls)
              | None => None
              end
          end
      end
  end.

(** A message of the SDK: [Body], [MessageId] and [ReceiptHandle] are
    pointers. *)
Record sqs_Message : Type := {
  sqs_Body : option string;
  sqs_MessageId : option string;
  sqs_ReceiptHandle : option string
}.

(** Lines 211-217: the slice made at line 209 holds nil pointers, and
    the loop sets its entries by index. *)
Fixpoint fill_result (i : nat) (msgs : list sqs_Message)
    (result : list (option ReceiveMessage))
    : Result (list (option ReceiveMessage)) :=
  match msgs with
  | [] => Returned result
  | msg :: rest =>
      match sqs_MessageId msg, sqs_ReceiptHandle msg with
      | Some id, Some rh =>
          fill_result (S i) rest
            (<[i := Some {| MessageID := id; ReceiptHandle := rh;
                            Body := sqs_Body msg |}]> result)
      | _, _ => Panicked nil_dereference
      end
  end.

(** [ReceiveMessages] of [client], lines 196-219; the result is the slice
    [ReceiveMessages] of the returned struct, [None] for a nil
    result. *)
Definition client_ReceiveMessages (args : ReceiveMessagesArgs)
    (ReceiveMessage_answer : list sqs_Message * error)
    : Result (option (list (option ReceiveMessage)) * error) * list SdkCall :=
  let (Messages, err) := ReceiveMessage_answer in
  let calls := [sqs_ReceiveMessage (rm_QueueID args) 10 20] in
  if negb (is_nil err) then (Returned (None, err), calls)
  else
    match fill_result 0 Messages (replicate (length Messages) None) with
    | Returned result => (Returned (Some result, err), calls)
    | Panicked info => (Panicked info, calls)
    end.

(** [ReportFailureMessage] and [ReportSuccessMessage] of [client], lines
    221-244; [answer] is the error of the SDK call. *)
Definition client_ReportFailureMessage (args : ReportFailureMessageArgs)
    (answer : error) : error * list SdkCall :=
  let err := answer in
  let calls := [sqs_ChangeMessageVisibility (rf_QueueID args)
                  (rf_ReceiptHandle args) (rf_WaitTime args)] in
  if negb (is_nil err) then (err, calls) else (nil, calls).

Definition client_ReportSuccessMessage (args : ReportSuccessMessageArgs)
    (answer : error) : error * list SdkCall :=
  let err := answer in
  let calls := [sqs_DeleteMessage (rs_QueueID args) (rs_ReceiptHandle args)] in
  if negb (is_nil err) then (err, calls) else (nil, calls).


Record SendMessageArgs : Type := {
  sm_QueueID : string;
  sm_Message : string
}.


Definition client_SendMessage (args : SendMessageArgs) (answer : error)
    : error * list SdkCall :=
  (answer, [sqs_SendMessage (sm_QueueID args) (sm_Message args)]).

(** ** Package pub: the publisher

    [json_Marshal] is what [json.Marshal(obj)] returns: the bytes as a
    string, and the error. *)


(** [SendMessage] of [publisher], lines 44-60. *)
Definition publisher_SendMessage (queueName : string)
    (json_Marshal : string * error)
    (GetQueueUrl : option string * error) (SendMessage_answer : error)
    (t : client) : Outcome error :=
  let (messageBytes, err) := json_Marshal in
  if negb (is_nil err) then Some (t, Returned err, [])
  else
    match client_GetQueueID queueName GetQueueUrl t with
    | None => None
    | Some (t', Panicked info, calls) => Some (t', Panicked info, calls)
    | Some (t', Returned (id, err), calls) =>
        if negb (is_nil err) then Some (t', Returned err, calls)
        else
          let (err, calls') :=
            client_SendMessage {| sm_Message := messageBytes;
                                  sm_QueueID := id |} SendMessage_answer in
          Some (t', Returned err, calls ++ calls')
    end.

(** The lock is free: nothing is queued in it, and it has room. *)
Definition lock_free (c : chan) : Prop :=
  chan_buf c = [] ∧ chan_cap c = 1%nat.

(** Every cached topic is stored under the last segment of its ARN. *)
Definition topics_ok (m : gmap string string) : Prop :=
  ∀ k arn, m !! k = Some arn → last (strings_Split arn colon) = Some k.

(** The conversion of one SDK message. *)
Definition convert (msg : sqs_Message) : option ReceiveMessage :=
  match sqs_MessageId msg, sqs_ReceiptHandle msg with
  | Some id, Some rh =>
      Some {| MessageID := id; ReceiptHandle := rh; Body := sqs_Body msg |}
  | _, _ => None
  end.

(** The topics of the pages a scan has read. *)
Definition listed (pages : list (ListTopicsOutput * error)) (arn : string)
    : Prop :=
  ∃ a, a ∈ pages ∧ Some arn ∈ Topics a.1.

(** ** Further examples *)

(** The message of "B" is dispatched and waits for the permit. *)
Definition ex_sched_spawned : list Action :=
  [AGetQueueID "B" "urlB" nil; AReceiveMessages 0 [ex_m2] nil; AGo 0].



(** The task of [ex_m2] at the end of [ex_sched_busy]. *)
Definition ex_busy_task : Task :=
  {| t_loop := 1; t_wg := 1; t_msg := ex_m2; t_pc := TAcquire;
     t_calls := [] |}.

(** The message of "A" is acknowledged and the acknowledgement
    reported. *)
Definition ex_sched_acked : list Action :=
  ex_sched_ack ++ [AHandler 0; AReport 0 nil].

Definition ex_acked_task : Task :=
  {| t_loop := 0; t_wg := 0; t_msg := ex_m1; t_pc := TDone;
     t_calls := [CallReportSuccessMessage
                   {| rs_QueueID := "urlA"; rs_ReceiptHandle := "r1" |} nil] |}.

(** A client as [NewClient] makes it. *)
Definition ex_option : ProviderOption :=
  {| AWSAccessKey := "key"; AWSSecretKey := "secret";
     AWSRegion := "ap-northeast-1" |}.

Definition ex_client : client :=
  {| client_opt := ex_option; topics := ∅; topicsGettingLock := make_chan 1;
     queues := ∅; queuesGettingLock := make_chan 1 |}.

(** Two pages of topics; the second is the last. *)
Definition ex_arn_orders : string := "arn:aws:sns:ap-northeast-1:1234:Orders".
Definition ex_arn_events : string := "arn:aws:sns:ap-northeast-1:1234:Events".
Definition ex_arn_billing : string := "arn:aws:sns:ap-northeast-1:1234:Billing".

Definition ex_pages : list (ListTopicsOutput * error) :=
  [({| Topics := [Some ex_arn_orders; Some ex_arn_events];
       NextToken := Some "page2" |}, nil);
   ({| Topics := [Some ex_arn_billing]; NextToken := None |}, nil)].

(** The client after [GetTopicID "Billing"] on [ex_pages]. *)
Definition ex_client_topics : client :=
  {| client_opt := ex_option;
     topics := <["Billing" := ex_arn_billing]>
                 (<["Events" := ex_arn_events]>
                    (<["Orders" := ex_arn_orders]> ∅));
     topicsGettingLock := make_chan 1;
     queues := ∅; queuesGettingLock := make_chan 1 |}.

(** The client after [GetQueueID "Queue1"] answered with a URL. *)
Definition ex_url : string := "https://sqs.example/1234/Queue1".

Definition ex_client_queue : client :=
  {| client_opt := ex_option; topics := ∅; topicsGettingLock := make_chan 1;
     queues := <["Queue1" := ex_url]> ∅; queuesGettingLock := make_chan 1 |}.

(** ** Lemmas on [count] and on list updates *)

Lemma count_app {A : Type} (P : A → bool) (l1 l2 : list A) :
  count P (l1 ++ l2) = (count P l1 + count P l2)%nat.
Proof. induction l1 as [|x l1 IH]; simpl; [done | rewrite IH; lia]. Qed.

Lemma count_insert {A : Type} (P : A → bool) (l : list A) (i : nat) (x y : A) :
  l !! i = Some x →
  (count P (<[i := y]> l) + (if P x then 1 else 0)
   = count P l + (if P y then 1 else 0))%nat.
Proof.
  revert i. induction l as [|z l IH]; intros [|i] Hi; simplify_eq/=.
  - lia.
  - specialize (IH _ Hi). lia.
Qed.

Lemma count_le_weaken {A : Type} (P Q : A → bool) (l : list A) :
  (∀ x, P x = true → Q x = true) → (count P l ≤ count Q l)%nat.
Proof.
  intros HPQ. induction l as [|x l IH]; simpl; [lia |].
  destruct (P x) eqn:HP; [rewrite (HPQ _ HP) |]; lia.
Qed.

Lemma count_zero {A : Type} (P : A → bool) (l : list A) (i : nat) (x : A) :
  count P l = O → l !! i = Some x → P x = false.
Proof.
  revert i. induction l as [|z l IH]; intros [|i] H0 Hi; simplify_eq/=.
  - destruct (P x); [lia | done].
  - apply (IH i); [lia | done].
Qed.

Lemma count_zero_intro {A : Type} (P : A → bool) (l : list A) :
  (∀ i x, l !! i = Some x → P x = false) → count P l = O.
Proof.
  induction l as [|z l IH]; intros H; simpl; [done |].
  rewrite (H O z eq_refl), IH; [done |].
  intros i x Hi. apply (H (S i) x Hi).
Qed.

Lemma count_pos {A : Type} (P : A → bool) (l : list A) (i : nat) (x : A) :
  l !! i = Some x → P x = true → (0 < count P l)%nat.
Proof.
  intros Hi HP. destruct (count P l) eqn:Hc; [| lia].
  rewrite (count_zero P l i x Hc Hi) in HP. done.
Qed.

(** ** Case analysis of a step *)

Ltac unfold_step H :=
  unfold step, step_spawner_resolve, step_spawner_send, step_receive,
    step_loop_send, step_go, step_wait, step_acquire, step_handler,
    step_report, step_task_send, step_wg_done, step_release,
    chFatal_send, chan_send, chan_recv in H.

Ltac step_cases H :=
  unfold_step H;
  repeat (match goal with
          | H' : context [match ?x with _ => _ end] |- _ => destruct x eqn:?
          end; simplify_eq/=; try done);
  repeat match goal with
         | H' : is_nil ?e = _ |- _ => is_var e; destruct e; simplify_eq/=
         | |- context [after_report ?e] =>
             is_var e; destruct e; unfold after_report; simpl
         | |- context [after_handler ?r] =>
             let Hr := fresh "Hr" in
             destruct r as [[|?]|?] eqn:Hr; unfold after_handler; simpl
         end.

Lemma step_config a s s' :
  step a s = Some s' →
  handlers (sub s') = handlers (sub s) ∧
  sub_option (sub s') = sub_option (sub s) ∧
  chan_cap (semaphore (sub s')) = chan_cap (semaphore (sub s)).
Proof. intros H. destruct a; step_cases H. Qed.

Ltac count_task P :=
  match goal with
  | Ht : tasks _ !! ?k = Some ?t |- context [count P (<[?k := ?t']> ?l)] =>
      let Hi := fresh "Hi" in
      let Hb := fresh "Hb" in
      let Hb' := fresh "Hb" in
      pose proof (count_insert P l k t t' Ht) as Hi;
      destruct (P t) eqn:Hb; destruct (P t') eqn:Hb';
      unfold holds_permit, executing, pending_on, pending in Hb, Hb';
      simpl in Hb, Hb';
      repeat match goal with Hpc : t_pc t = _ |- _ => rewrite Hpc in Hb end;
      try discriminate
  end.

(** ** The semaphore invariant *)

Lemma sem_inv_step a s s' : sem_inv s → step a s = Some s' → sem_inv s'.
Proof.
  intros Hinv H.
  destruct a; step_cases H; destruct Hinv as [Hc Hle]; unfold sem_inv; simpl.
  all: try (rewrite ?count_app; simpl; split; [lia | done]).
  all: count_task holds_permit.
  all: rewrite ?length_app in *; simpl in *.
  all: try match goal with H : (_ <? _)%nat = true |- _ => apply Nat.ltb_lt in H end.
  all: try match goal with H : chan_buf _ = _ |- _ => rewrite H in * end.
  all: simpl in *; split; lia.
Qed.

Lemma lookup_insert_cases {A} (l : list A) (i j : nat) (x y : A) :
  <[i := y]> l !! j = Some x →
  (j = i ∧ x = y) ∨ (j ≠ i ∧ l !! j = Some x).
Proof.
  intros H. destruct (decide (j = i)) as [->|Hne].
  - left. split; [done |]. 
    assert (i < length l)%nat.
    { apply lookup_lt_Some in H. by rewrite length_insert in H. }
    rewrite list_lookup_insert_eq in H by done. congruence.
  - right. rewrite list_lookup_insert_ne in H by done. done.
Qed.

Lemma lookup_snoc_cases {A} (l : list A) (j : nat) (x y : A) :
  (l ++ [y]) !! j = Some x →
  (j = length l ∧ x = y) ∨ ((j < length l)%nat ∧ l !! j = Some x).
Proof.
  intros H. destruct (decide (j < length l)%nat) as [Hlt|Hge].
  - right. by rewrite lookup_app_l in H.
  - left. rewrite lookup_app_r in H by lia.
    destruct (j - length l)%nat eqn:E; simplify_eq/=.
    split; [lia | done].
Qed.

Ltac split_lookups :=
  repeat match goal with
  | H : <[_ := _]> _ !! _ = Some _ |- _ =>
      apply lookup_insert_cases in H as [[-> ->] | [? H]]
  | H : (_ ++ [_]) !! _ = Some _ |- _ =>
      apply lookup_snoc_cases in H as [[-> ->] | [? H]]
  end.

(** ** The wait group invariant *)

Ltac count_pending w :=
  match goal with
  | Ht : tasks _ !! ?k = Some ?t |- context [count (pending_on w) (<[?k := ?t']> ?l)] =>
      let Hi := fresh "Hi" in
      pose proof (count_insert (pending_on w) l k t t' Ht) as Hi;
      unfold pending_on at 2 4 in Hi; unfold pending in Hi; simpl in Hi;
      repeat match goal with Hpc : t_pc t = _ |- _ => rewrite Hpc in Hi end;
      simpl in Hi;
      destruct (Nat.eqb_spec (t_wg t) w); simpl in Hi
  end.

Lemma wg_counts_step a s s' :
  wg_inv s → step a s = Some s' →
  ∀ w n, wgs s' !! w = Some n → n = count (pending_on w) (tasks s').
Proof.
  intros Hinv H w n Hw.
  destruct a; step_cases H; destruct Hinv as (Hc & Hb & Hl);
    split_lookups; rewrite ?count_app; simpl.
  all: try (by apply Hc).
  all: try (count_pending w; apply Hc in Hw; lia).
  - symmetry. apply count_zero_intro. intros k t Ht.
    destruct (Hb _ _ Ht) as [Hlt _]. unfold pending_on.
    destruct (Nat.eqb_spec (t_wg t) (length (wgs s))); [lia |].
    by rewrite andb_false_r.
  - unfold pending_on at 2; simpl. rewrite Nat.eqb_refl; simpl.
    match goal with H : wgs _ !! _ = Some _ |- _ => apply Hc in H; lia end.
  - unfold pending_on at 2; simpl.
    destruct (Nat.eqb_spec wgMessage w); [done |]. simpl.
    apply Hc in Hw. lia.
  - count_pending (t_wg t); [| done].
    match goal with H : wgs _ !! _ = Some (S _) |- _ => apply Hc in H; lia end.
Qed.

Lemma wg_bounds_step a s s' :
  wg_inv s → step a s = Some s' →
  ∀ k t, tasks s' !! k = Some t →
     (t_wg t < length (wgs s'))%nat ∧ (t_loop t < length (loops s'))%nat.
Proof.
  intros Hinv H k0 t0 Ht0.
  destruct a; step_cases H; destruct Hinv as (Hc & Hb & Hl); split_lookups;
    rewrite ?length_app, ?length_insert; simpl.
  all: try (match goal with H : tasks _ !! _ = Some _ |- _ =>
              destruct (Hb _ _ H) end; split; lia).
  match goal with H : loops _ !! _ = Some _, Hpc : l_pc _ = _ |- _ =>
    pose proof (lookup_lt_Some _ _ _ H); apply Hl in H;
    unfold loop_wg_ok in H; rewrite Hpc in H end.
  lia.
Qed.

Lemma loop_wg_ok_mono s s' i l :
  loop_wg_ok s i l →
  (length (wgs s) ≤ length (wgs s'))%nat →
  (∀ k t', tasks s' !! k = Some t' → t_loop t' = i → pending t' = true →
     ∃ t, tasks s !! k = Some t ∧ t_loop t = i ∧ t_wg t = t_wg t' ∧
          pending t = true) →
  loop_wg_ok s' i l.
Proof.
  unfold loop_wg_ok. intros Hok Hlen Hts.
  destruct (l_pc l).
  1, 2, 4: intros k t' Ht' Hi; destruct (pending t') eqn:Hp; [| done];
    destruct (Hts _ _ Ht' Hi Hp) as (t & Ht & Hi' & _ & Hp');
    by rewrite (Hok _ _ Ht Hi') in Hp'.
  destruct Hok as [Hlt Hok]. split; [lia |].
  intros k t' Ht' Hi Hp.
  destruct (Hts _ _ Ht' Hi Hp) as (t & Ht & Hi' & <- & Hp'). eauto.
Qed.

Ltac use_pc :=
  unfold pending, holds_permit, executing in *; simpl in *;
  repeat match goal with
         | Hpc : t_pc ?t = _ |- context [t_pc ?t] => rewrite Hpc
         | Hpc : t_pc ?t = _, H : context [t_pc ?t] |- _ =>
             lazymatch H with Hpc => fail | _ => rewrite Hpc in H end
         end;
  try done.

Lemma wg_loops_step a s s' :
  wg_inv s → step a s = Some s' →
  ∀ i l, loops s' !! i = Some l → loop_wg_ok s' i l.
Proof.
  intros Hinv H i0 l0 Hl0.
  destruct a; step_cases H; destruct Hinv as (Hc & Hb & Hl); split_lookups.
  all: try (apply (loop_wg_ok_mono _ _ _ _ (Hl _ _ Hl0)); simpl;
            rewrite ?length_app, ?length_insert; [lia |];
            intros k1 t1 Ht1 Hi1 Hp1; split_lookups; simpl in *;
            try congruence;
            eexists; (split; [eassumption |]); repeat split; try done;
            by use_pc).
  all: try match goal with
       | Hi : loops _ !! ?i = Some ?l, Hpc : l_pc ?l = _ |- _ =>
           let Hok := fresh "Hok" in
           pose proof (Hl _ _ Hi) as Hok; unfold loop_wg_ok in Hok;
           rewrite Hpc in Hok
       end.
  all: unfold loop_wg_ok; simpl; rewrite ?length_app, ?length_insert.
  - intros k t Ht Hi. destruct (Hb _ _ Ht). lia.
  - split; [simpl; lia |]. intros k t Ht Hi Hp.
    rewrite (Hok _ _ Ht Hi) in Hp. done.
  - done.
  - done.
  - destruct Hok as [Hlt Hok]. split; [done |].
    intros k t Ht Hi Hp. split_lookups; [done |]. eauto.
  - intros k t Ht Hi. destruct (pending t) eqn:Hp; [| done].
    destruct Hok as [Hlt Hok].
    match goal with Hw : wgs _ !! _ = Some O |- _ =>
      apply Hc in Hw; symmetry in Hw;
      pose proof (count_zero _ _ _ _ Hw Ht) as Hz end.
    unfold pending_on in Hz. rewrite Hp, (Hok _ _ Ht Hi Hp), Nat.eqb_refl in Hz.
    done.
Qed.

Lemma wg_inv_step a s s' : wg_inv s → step a s = Some s' → wg_inv s'.
Proof.
  intros Hinv H. split; [| split].
  - by eapply wg_counts_step.
  - by eapply wg_bounds_step.
  - by eapply wg_loops_step.
Qed.

(** ** The invariant of dispatch tasks *)

Lemma loops_closure_step a s s' i l :
  step a s = Some s' → loops s !! i = Some l →
  ∃ l', loops s' !! i = Some l' ∧ same_closure l l'.
Proof.
  intros H Hl. unfold same_closure.
  destruct a; step_cases H; eauto 10.
  all: try (rewrite lookup_app_l by (by eapply lookup_lt_Some); by eauto 10).
  all: match goal with Hj : loops _ !! ?j = Some _ |- _ =>
         destruct (decide (i = j)) as [-> |];
         [rewrite list_lookup_insert_eq by (by eapply lookup_lt_Some);
          simplify_eq; by eauto 10
         |rewrite list_lookup_insert_ne by done; by eauto 10]
       end.
Qed.

Ltac case_after :=
  repeat match goal with
         | |- context [after_report ?e] =>
             is_var e; destruct e; unfold after_report; simpl
         | |- context [after_handler ?r] =>
             let Hr := fresh "Hr" in
             destruct r as [[|?]|?] eqn:Hr; unfold after_handler; simpl
         end.

Lemma tasks_inv_step a s s' : tasks_inv s → step a s = Some s' → tasks_inv s'.
Proof.
  intros Hinv H k0 t0 Ht0.
  pose proof (λ i l, loops_closure_step a s s' i l H) as Hcl.
  destruct a; step_cases H; split_lookups.
  all: try (destruct (Hinv _ _ Ht0) as (lx & Hlx & Hok);
            destruct (Hcl _ _ Hlx) as (lx' & Hlx' & _ & _ & Hid & Hh);
            exists lx'; split; [done |]; by rewrite Hid, Hh).
  all: try match goal with
       | Ht : tasks _ !! _ = Some ?t, Hpc : t_pc ?t = _ |- _ =>
           destruct (Hinv _ _ Ht) as (lx & Hlx & Hok);
           unfold task_ok in Hok; rewrite Hpc in Hok;
           exists lx; split; [done |]; simplify_eq/=
       end.
  all: unfold task_ok, prescribed_report in *; simpl; case_after.
  all: try done.
  - destruct (Hcl _ _ Heqo) as (l' & Hl' & _). by exists l'.
  - split; [done | by eexists].
  - destruct Hok as [Hcalls [m Hr]]. rewrite Hcalls, Hr. right. by eauto.
  - destruct Hok as [Hcalls [m Hr]]. rewrite Hcalls, Hr. split; by eauto.
  - destruct Hok as [Hcalls Hr]. rewrite Hcalls, Hr. right. by eauto.
  - destruct Hok as [Hcalls Hr]. rewrite Hcalls, Hr. split; by eauto.
  - destruct Hok as [Hne (c & Hc & Hcalls)]. right. by eauto.
  - destruct Hok as [Hcalls Hr]. left. by eauto.
Qed.

(** ** The invariant of the registry and the poll loops *)

Lemma loop_names_insert (ls : list Loop) i l l' :
  ls !! i = Some l → l_queueName l' = l_queueName l →
  l_queueName <$> <[i := l']> ls = l_queueName <$> ls.
Proof.
  intros Hi Hn. rewrite list_fmap_insert, Hn.
  apply list_insert_id. by rewrite list_lookup_fmap, Hi.
Qed.

Lemma loop_name_resolved s i l :
  (∀ i l, loops s !! i = Some l → loop_ok s l) →
  loops s !! i = Some l → l_queueName l ∈ (resolved s).*1.
Proof.
  intros Hok Hi. destruct (Hok _ _ Hi) as (_ & _ & Hin & _).
  apply list_elem_of_fmap. by exists (l_queueName l, (l_id l, nil)).
Qed.

Lemma registry_names_step a s s' :
  registry_inv s → step a s = Some s' →
  NoDup (resolved s').*1 ∧ NoDup (l_queueName <$> loops s').
Proof.
  intros Hinv H.
  destruct a; step_cases H; destruct Hinv as (Hnd & Hnl & Hok & Hsp);
    unfold spawner_ok in Hsp; simpl.
  all: try (split; [done |]).
  all: try (erewrite loop_names_insert; by eauto).
  all: try done.
  all: rewrite Heqs0 in Hsp; destruct (Hsp _ _ Heqo) as [Hh Hfresh].
  all: rewrite ?fmap_app; simpl.
  - split.
    + apply NoDup_app. split; [done |]. split; [| apply NoDup_singleton].
      intros x Hx ->%list_elem_of_singleton. done.
    + apply NoDup_app. split; [done |]. split; [| apply NoDup_singleton].
      intros x Hx ->%list_elem_of_singleton.
      apply list_elem_of_fmap in Hx as (l & -> & Hl).
      apply list_elem_of_lookup in Hl as [i Hi].
      apply Hfresh. by eapply loop_name_resolved.
  - split; [| done].
    apply NoDup_app. split; [done |]. split; [| apply NoDup_singleton].
    intros x Hx ->%list_elem_of_singleton. done.
Qed.

Lemma registry_loops_step a s s' :
  registry_inv s → step a s = Some s' →
  ∀ i l, loops s' !! i = Some l → loop_ok s' l.
Proof.
  intros Hinv H i0 l0 Hl0.
  destruct a; step_cases H; destruct Hinv as (Hnd & Hnl & Hok & Hsp);
    unfold spawner_ok in Hsp; split_lookups.
  all: try (by apply (Hok _ _ Hl0)).
  all: try match goal with
       | Hi : loops _ !! _ = Some ?l |- _ =>
           destruct (Hok _ _ Hi) as (Hh & Hq & Hr & Hc)
       end.
  all: unfold loop_ok; simpl.
  all: try rewrite Heqs0 in Hsp.
  all: repeat split; try done.
  all: try (apply elem_of_app; by left).
  - by apply (Hsp _ _ Heqo).
  - apply elem_of_app. right. by apply list_elem_of_singleton.
  - by intros args ret ?%elem_of_nil.
  - intros args ret [Hin | Hin%list_elem_of_singleton]%elem_of_app;
      [by eauto | by simplify_eq/=].
  - intros args ret [Hin | Hin%list_elem_of_singleton]%elem_of_app;
      [by eauto | by simplify_eq/=].
Qed.

Lemma registry_spawner_step a s s' :
  registry_inv s → step a s = Some s' → spawner_ok s'.
Proof.
  intros Hinv H.
  destruct a; step_cases H; destruct Hinv as (Hnd & Hnl & Hok & Hsp);
    unfold spawner_ok in *; simpl; try done.
  - rewrite Heqs0 in Hsp. intros q b' [Hne Hq]%lookup_delete_Some.
    destruct (Hsp _ _ Hq) as [Hh Hfresh]. split; [done |].
    rewrite fmap_app. intros [Hin | Hin%list_elem_of_singleton]%elem_of_app;
      [done | by simplify_eq/=].
  - split; [done |]. rewrite last_snoc. by eauto.
Qed.

Lemma registry_inv_step a s s' :
  registry_inv s → step a s = Some s' → registry_inv s'.
Proof.
  intros Hinv H.
  destruct (registry_names_step _ _ _ Hinv H) as [Hnd Hnl].
  split; [done |]. split; [done |]. split.
  - by eapply registry_loops_step.
  - by eapply registry_spawner_step.
Qed.

(** ** Messages come from the loop that dispatches them *)

Lemma loops_calls_step a s s' i l :
  step a s = Some s' → loops s !! i = Some l →
  ∃ l', loops s' !! i = Some l' ∧ ∀ x, x ∈ l_calls l → x ∈ l_calls l'.
Proof.
  intros H Hl.
  destruct a; step_cases H; eauto 10.
  all: try (rewrite lookup_app_l by (by eapply lookup_lt_Some); by eauto 10).
  all: match goal with Hj : loops _ !! ?j = Some _ |- _ =>
         destruct (decide (i = j)) as [-> |];
         [rewrite list_lookup_insert_eq by (by eapply lookup_lt_Some);
          simplify_eq; eexists; split; [done |]; simpl; intros x Hx;
          rewrite ?elem_of_app; by eauto
         |rewrite list_lookup_insert_ne by done; by eauto 10]
       end.
Qed.

Ltac loop_fact Hpc Hok :=
  match goal with
  | Hi : loops _ !! _ = Some ?l, Hp : l_pc ?l = _ |- _ =>
      pose proof (Hpc _ _ Hi) as Hok; unfold loop_pc_ok in Hok;
      rewrite Hp in Hok
  end.

Lemma last_elem_of {A} (l : list A) (x : A) : last l = Some x → x ∈ l.
Proof.
  intros H. apply last_Some in H as [l' ->].
  apply elem_of_app. right. by apply list_elem_of_singleton.
Qed.

Lemma fetch_loops_step a s s' :
  fetch_inv s → step a s = Some s' →
  ∀ i l, loops s' !! i = Some l → loop_pc_ok l.
Proof.
  intros Hinv H i0 l0 Hl0.
  destruct a; step_cases H; destruct Hinv as [Hpc Hmsg]; split_lookups.
  all: try (by apply (Hpc _ _ Hl0)).
  all: unfold loop_pc_ok; simpl; rewrite ?last_snoc; try done.
  - by exists {| rm_QueueID := l_queueID l |}, res, [].
  - split; [done | by eauto].
  - loop_fact Hpc Hok. destruct Hok as (args & res & pre & Hlast & ->).
    eexists _, _, _. split; [done |]. apply (app_assoc _ [_] _).
Qed.

Lemma fetch_tasks_step a s s' :
  fetch_inv s → step a s = Some s' →
  ∀ k t, tasks s' !! k = Some t →
     ∃ l, loops s' !! t_loop t = Some l ∧ fetched l (t_msg t).
Proof.
  intros Hinv H k0 t0 Ht0.
  pose proof (λ i l, loops_calls_step a s s' i l H) as Hcl.
  assert (Hold : ∀ k t, tasks s !! k = Some t →
            ∃ l, loops s' !! t_loop t = Some l ∧ fetched l (t_msg t)).
  { intros k t Ht. destruct Hinv as [_ Hmsg].
    destruct (Hmsg _ _ Ht) as (l & Hl & args & res & Hin & Hm).
    destruct (Hcl _ _ Hl) as (l' & Hl' & Hsub).
    exists l'. split; [done |]. exists args, res. by eauto. }
  destruct a; step_cases H; destruct Hinv as [Hpc Hmsg]; split_lookups;
    simpl in *.
  all: try (by apply (Hold _ _ Ht0)).
  all: try (match goal with Ht : tasks _ !! _ = Some _ |- _ =>
              by apply (Hold _ _ Ht) end).
  rewrite list_lookup_insert_eq by (by eapply lookup_lt_Some).
  eexists. split; [done |]. simpl.
  loop_fact Hpc Hok. destruct Hok as (args & res & pre & Hlast & ->).
  eexists _, _. split; [by apply last_elem_of |].
  apply elem_of_app. right. by left.
Qed.

Lemma fetch_inv_step a s s' : fetch_inv s → step a s = Some s' → fetch_inv s'.
Proof.
  intros Hinv H. split.
  - by eapply fetch_loops_step.
  - by eapply fetch_tasks_step.
Qed.

(** ** What is received from [chFatal] *)

Lemma prescribed_report_ret b id msg ret c :
  prescribed_report b id msg ret = Some c → call_ret c = ret.
Proof.
  unfold prescribed_report. intros H.
  destruct (handler_result b msg) as [[|?]|?]; by simplify_eq/=.
Qed.

Lemma task_past_step a s s' k t :
  step a s = Some s' → tasks s !! k = Some t → past_sends t = true →
  ∃ t', tasks s' !! k = Some t' ∧ past_sends t' = true ∧
        t_loop t' = t_loop t ∧ t_msg t' = t_msg t ∧ t_calls t' = t_calls t.
Proof.
  intros H Ht Hpast.
  destruct a; step_cases H.
  all: try (exists t; by rewrite ?lookup_app_l by (by eapply lookup_lt_Some)).
  all: match goal with Hj : tasks _ !! ?j = Some _ |- _ =>
         destruct (decide (k = j)) as [-> |];
         [rewrite list_lookup_insert_eq by (by eapply lookup_lt_Some);
          simplify_eq; unfold past_sends in Hpast;
          match goal with Hpc : t_pc _ = _ |- _ => rewrite Hpc in Hpast end;
          try done; by eexists
         |rewrite list_lookup_insert_ne by done; by exists t]
       end.
Qed.

Lemma loop_exit_step a s s' i l :
  step a s = Some s' → loops s !! i = Some l → l_pc l = LExit →
  ∃ l', loops s' !! i = Some l' ∧ l_pc l' = LExit ∧ l_calls l' = l_calls l.
Proof.
  intros H Hl Hpc.
  destruct a; step_cases H.
  all: try (exists l; by rewrite ?lookup_app_l by (by eapply lookup_lt_Some)).
  all: match goal with Hj : loops _ !! ?j = Some _ |- _ =>
         destruct (decide (i = j)) as [-> |];
         [simplify_eq; congruence
         |rewrite list_lookup_insert_ne by done; by exists l]
       end.
Qed.

Lemma spawner_exit_step a s s' :
  step a s = Some s' → spawner s = SpExit →
  spawner s' = SpExit ∧ resolved s' = resolved s.
Proof. intros H Hsp. destruct a; step_cases H. Qed.

Lemma origin_step a s s' tid e :
  origin s tid e → step a s = Some s' → origin s' tid e.
Proof.
  intros Ho H. destruct tid as [| i | k]; simpl in *.
  - destruct Ho as [Hsp Hlast].
    destruct (spawner_exit_step _ _ _ H Hsp) as [-> ->]. done.
  - destruct Ho as (l & args & res & Hl & Hpc & Hlast).
    destruct (loop_exit_step _ _ _ _ _ H Hl Hpc) as (l' & Hl' & Hpc' & Hc).
    exists l', args, res. by rewrite Hc.
  - destruct Ho as (t & l & Ht & Hl & Hpast & Hor).
    destruct (loops_closure_step _ _ _ _ _ H Hl) as (l' & Hl' & _ & _ & _ & Hh).
    destruct (task_past_step _ _ _ _ _ H Ht Hpast)
      as (t' & Ht' & Hpast' & Hlo & Hm & Hc).
    exists t', l'. rewrite Hlo, Hm, Hc, Hh. done.
Qed.

Lemma step_delivery a s s' :
  tasks_inv s → registry_inv s → fetch_inv s →
  step a s = Some s' →
  (main s' = main s ∧ delivered s' = delivered s) ∨
  (∃ tid e, main s = MReceiving ∧ main s' = MReturned e ∧
            delivered s' = delivered s ++ [(tid, e)] ∧ sending s tid e ∧
            e ≠ nil ∧ origin s' tid e).
Proof.
  intros Hti Hri Hfi H. destruct a; step_cases H; try (by left).
  - right. eexists TidSpawner, _. simpl.
    destruct Hri as (_ & _ & _ & Hsp). unfold spawner_ok in Hsp.
    match goal with Hs : spawner _ = _ |- _ => rewrite Hs in Hsp end.
    destruct Hsp as [Hne Hlast]. by eauto 10.
  - right. eexists (TidLoop _), _. simpl.
    destruct Hfi as [Hpc _]. loop_fact Hpc Hok.
    destruct Hok as (Hne & args & res & Hlast).
    repeat split; try done; [by eauto |].
    eexists _, args, res.
    rewrite list_lookup_insert_eq by (by eapply lookup_lt_Some). done.
  - right. eexists (TidTask _), _. simpl.
    match goal with Ht : tasks _ !! _ = Some ?t, Hp : t_pc ?t = _ |- _ =>
      destruct (Hti _ _ Ht) as (l & Hl & Hok); unfold task_ok in Hok;
      rewrite Hp in Hok end.
    destruct Hok as (Hne & c & Hc & Hcalls).
    repeat split; try done; [by eauto |].
    eexists _, l.
    rewrite list_lookup_insert_eq by (by eapply lookup_lt_Some).
    repeat split; try done. right. exists c. split; [done |].
    by eapply prescribed_report_ret.
  - right. eexists (TidTask _), _. simpl.
    match goal with Ht : tasks _ !! _ = Some ?t, Hp : t_pc ?t = _ |- _ =>
      destruct (Hti _ _ Ht) as (l & Hl & Hok); unfold task_ok in Hok;
      rewrite Hp in Hok end.
    destruct Hok as (Hcalls & Hr).
    repeat split; try done; [by eauto 10 |].
    eexists _, l.
    rewrite list_lookup_insert_eq by (by eapply lookup_lt_Some).
    repeat split; try done. left. by eauto.
Qed.

Lemma delivery_inv_step a s s' :
  tasks_inv s → registry_inv s → fetch_inv s → delivery_inv s →
  step a s = Some s' → delivery_inv s'.
Proof.
  intros Hti Hri Hfi [Hmain Hor] H.
  assert (Hkeep : ∀ tid e, (tid, e) ∈ delivered s → e ≠ nil ∧ origin s' tid e).
  { intros tid e Hin. destruct (Hor _ _ Hin) as [Hne Ho].
    split; [done |]. by eapply origin_step. }
  destruct (step_delivery _ _ _ Hti Hri Hfi H)
    as [[Hm Hd] | (tid & e & Hm & Hm' & Hd & _ & Hne & Ho)].
  - split; [by rewrite Hm, Hd | by rewrite Hd].
  - rewrite Hm in Hmain. rewrite Hmain in Hd. simpl in Hd.
    split; [rewrite Hm', Hd; by eauto |].
    rewrite Hd. intros tid' e' Hin%list_elem_of_singleton. by simplify_eq.
Qed.

(** ** Every received message is dispatched *)

Lemma dispatched_app i ts1 ts2 :
  dispatched i (ts1 ++ ts2) = dispatched i ts1 ++ dispatched i ts2.
Proof.
  induction ts1 as [|t ts1 IH]; simpl; [done |].
  destruct (Nat.eqb (t_loop t) i); simpl; by rewrite IH.
Qed.

Lemma dispatched_insert i ts k t t' :
  ts !! k = Some t → t_loop t' = t_loop t → t_msg t' = t_msg t →
  dispatched i (<[k := t']> ts) = dispatched i ts.
Proof.
  revert k. induction ts as [|x ts IH]; intros [|k] Hk Hl Hm; simplify_eq/=.
  - by rewrite Hl, Hm.
  - by rewrite (IH k).
Qed.

Lemma dispatched_none i ts :
  (∀ k t, ts !! k = Some t → t_loop t ≠ i) → dispatched i ts = [].
Proof.
  induction ts as [|x ts IH]; intros H; simpl; [done |].
  destruct (Nat.eqb_spec (t_loop x) i) as [Heq | _].
  - by destruct (H O x eq_refl).
  - apply IH. intros k t Hk. apply (H (S k) t Hk).
Qed.

Lemma received_snoc calls args res err :
  received (calls ++ [(args, (res, err))]) =
  received calls ++ (if is_nil err then res else []).
Proof.
  induction calls as [|[a [r e]] calls IH]; simpl.
  - by rewrite app_nil_r.
  - by rewrite IH, app_assoc.
Qed.

Lemma dispatch_inv_step a s s' :
  wg_inv s → dispatch_inv s → step a s = Some s' → dispatch_inv s'.
Proof.
  intros Hwg Hinv H i0 l0 Hl0.
  destruct a; step_cases H; split_lookups; simpl.
  all: try (erewrite dispatched_insert; [| eassumption | done | done]).
  all: try (by apply (Hinv _ _ Hl0)).
  all: try match goal with Hi : loops _ !! _ = Some ?l |- _ =>
         pose proof (Hinv _ _ Hi) as Heq; unfold undispatched in Heq end.
  all: unfold undispatched; simpl; rewrite ?received_snoc, ?dispatched_app; simpl.
  all: repeat match goal with Hp : l_pc _ = _ |- _ => rewrite Hp in * end.
  all: rewrite ?app_nil_r in *; try congruence.
  - symmetry. apply dispatched_none. intros k t Ht.
    destruct Hwg as (_ & Hb & _). destruct (Hb _ _ Ht). lia.
  - rewrite Nat.eqb_refl, <- app_assoc. done.
  - match goal with Hne : _ ≠ _ |- _ =>
      apply not_eq_sym, Nat.eqb_neq in Hne; rewrite Hne end.
    by rewrite app_nil_r.
Qed.

(** ** Reachable states *)

Lemma built_semaphore t :
  built t →
  semaphore t = make_chan (ConcurrencyMessageHandleLimit (sub_option t)) ∧
  1 ≤ ConcurrencyMessageHandleLimit (sub_option t).
Proof.
  induction 1 as [opt t Hnew | q h opt t Hb IH].
  - unfold NewSubscriber in Hnew.
    destruct (Z.ltb_spec (ConcurrencyMessageHandleLimit opt) 1); simplify_eq/=.
    split; [done | lia].
  - unfold SetHandler. by destruct (WaitTime opt <? 0).
Qed.

Lemma Inv_init t : built t → Inv (Subscribe t).
Proof.
  intros [Hsem Hlim]%built_semaphore.
  repeat split; simpl; try done.
  all: rewrite ?Hsem; simpl; try lia.
  all: try apply NoDup_nil_2.
  all: try (by intros ?%elem_of_nil).
  all: try apply not_elem_of_nil.
  all: by apply elem_of_nil in H.
Qed.

Lemma Inv_step a s s' : Inv s → step a s = Some s' → Inv s'.
Proof.
  intros (Hsem & Hwg & Hti & Hri & Hfi & Hdi & Hdp) H.
  split; [by eapply sem_inv_step |].
  split; [by eapply wg_inv_step |].
  split; [by eapply tasks_inv_step |].
  split; [by eapply registry_inv_step |].
  split; [by eapply fetch_inv_step |].
  split; [by eapply delivery_inv_step |].
  by eapply dispatch_inv_step.
Qed.

Lemma Inv_run sched s s' : Inv s → run sched s = Some s' → Inv s'.
Proof.
  revert s. induction sched as [|a sched IH]; intros s Hinv H; simplify_eq/=.
  - done.
  - destruct (step a s) as [s1|] eqn:Hs; [| done].
    eapply IH; [| done]. by eapply Inv_step.
Qed.

Lemma Inv_reachable t sched s :
  built t → run sched (Subscribe t) = Some s → Inv s.
Proof. intros Hb H. eapply Inv_run; [by apply Inv_init | done]. Qed.

Lemma run_config sched s s' :
  run sched s = Some s' →
  handlers (sub s') = handlers (sub s) ∧
  sub_option (sub s') = sub_option (sub s) ∧
  chan_cap (semaphore (sub s')) = chan_cap (semaphore (sub s)).
Proof.
  revert s. induction sched as [|a sched IH]; intros s H; simplify_eq/=.
  - done.
  - destruct (step a s) as [s1|] eqn:Hs; [| done].
    destruct (step_config _ _ _ Hs) as (<- & <- & <-). by apply IH.
Qed.

(** ** After [Subscribe] has returned *)

(** Once the calling goroutine has returned, nothing is received from
    [chFatal] any more. *)
Lemma step_after_return a s s' e :
  main s = MReturned e → step a s = Some s' →
  main s' = MReturned e ∧ delivered s' = delivered s.
Proof. intros Hm H. destruct a; step_cases H. Qed.

Lemma run_after_return sched s s' e :
  main s = MReturned e → run sched s = Some s' →
  main s' = MReturned e ∧ delivered s' = delivered s.
Proof.
  revert s. induction sched as [|a sched IH]; intros s Hm H; simplify_eq/=.
  - done.
  - destruct (step a s) as [s1|] eqn:Hs; [| done].
    destruct (step_after_return _ _ _ _ Hm Hs) as [Hm1 <-]. by apply IH.
Qed.

(** A goroutine at a send on [chFatal] stays there while the calling
    goroutine has returned. *)
Lemma step_blocked a s s' e tid e' :
  main s = MReturned e → sending s tid e' → step a s = Some s' →
  sending s' tid e'.
Proof.
  intros Hm Hs H. destruct tid as [| i | k]; simpl in *.
  - destruct a; step_cases H; congruence.
  - destruct Hs as (l & Hl & Hpc).
    destruct a; step_cases H; try (by exists l).
    all: try (exists l; by rewrite lookup_app_l by (by eapply lookup_lt_Some)).
    all: match goal with Hj : loops _ !! ?j = Some _ |- _ =>
           destruct (decide (i = j)) as [-> |];
           [simplify_eq; congruence
           |exists l; by rewrite list_lookup_insert_ne by done]
         end.
  - destruct Hs as (t & Ht & Hpc).
    destruct a; step_cases H; try (by exists t).
    all: try (exists t; by rewrite lookup_app_l by (by eapply lookup_lt_Some)).
    all: match goal with Hj : tasks _ !! ?j = Some _ |- _ =>
           destruct (decide (k = j)) as [-> |];
           [simplify_eq; destruct Hpc as [Hpc | (info' & Hpc & _)]; congruence
           |exists t; by rewrite list_lookup_insert_ne by done]
         end.
Qed.

Lemma run_blocked sched s s' e tid e' :
  main s = MReturned e → sending s tid e' → run sched s = Some s' →
  sending s' tid e'.
Proof.
  revert s. induction sched as [|a sched IH]; intros s Hm Hs H; simplify_eq/=.
  - done.
  - destruct (step a s) as [s1|] eqn:Hst; [| done].
    destruct (step_after_return _ _ _ _ Hm Hst) as [Hm1 _].
    apply (IH s1); [done | by apply (step_blocked a s s1 e) | done].
Qed.

(** ** Construction and registration *)

(** C6.  [NewSubscriber] returns an error exactly when the limit is
    below 1, and a subscriber exactly when it returns no error; a limit
    of 0 is refused and a limit of 1 accepted. *)
Theorem NewSubscriber_limit (opt : SubscriberOption) :
  ((NewSubscriber opt).2 ≠ nil ↔ ConcurrencyMessageHandleLimit opt < 1) ∧
  ((NewSubscriber opt).2 = nil ↔ is_Some (NewSubscriber opt).1) ∧
  (NewSubscriber {| ConcurrencyMessageHandleLimit := 0 |}).2 ≠ nil ∧
  (NewSubscriber {| ConcurrencyMessageHandleLimit := 1 |}).2 = nil.
Proof.
  unfold NewSubscriber.
  destruct (Z.ltb_spec (ConcurrencyMessageHandleLimit opt) 1); simpl.
  - repeat split; try done; try lia.
  - repeat split; try done; try lia.
Qed.

(** C7.  With a negative wait time [SetHandler] returns an error and
    leaves the subscriber as it was; with a wait time of 0 or more it
    returns nil, binds the queue name to the given handler and option
    (replacing what was bound), and leaves every other name, the option
    and the semaphore unchanged. *)
Theorem SetHandler_waitTime (queueName : string) (h : option Handler)
    (opt : HandlerOption) (t : subscriber) :
  (WaitTime opt < 0 →
     (SetHandler queueName h opt t).2 ≠ nil ∧
     (SetHandler queueName h opt t).1 = t) ∧
  (0 ≤ WaitTime opt →
     (SetHandler queueName h opt t).2 = nil ∧
     handlers (SetHandler queueName h opt t).1 !! queueName
       = Some {| handler := h; hoption := opt |} ∧
     (∀ q, q ≠ queueName →
        handlers (SetHandler queueName h opt t).1 !! q = handlers t !! q) ∧
     sub_option (SetHandler queueName h opt t).1 = sub_option t ∧
     semaphore (SetHandler queueName h opt t).1 = semaphore t).
Proof.
  unfold SetHandler.
  destruct (Z.ltb_spec (WaitTime opt) 0); simpl.
  - split; [done | lia].
  - split; [lia |]. intros _. repeat split; try done.
    + apply lookup_insert_eq.
    + intros q Hq. by apply lookup_insert_ne.
Qed.

Lemma SetHandler_waitTime_witness :
  (SetHandler "A" (Some ex_ok) {| WaitTime := -1 |} (ex_new 1)).1 = ex_new 1 ∧
  handlers (SetHandler "A" (Some ex_ok) {| WaitTime := 0 |} ex_sub).1 !! "A"
    = Some {| handler := Some ex_ok; hoption := {| WaitTime := 0 |} |}.
Proof.
  split.
  - refine (proj2 (proj1 (SetHandler_waitTime "A" (Some ex_ok)
                            {| WaitTime := -1 |} (ex_new 1)) _)).
    simpl. lia.
  - refine (proj1 (proj2 (proj2 (SetHandler_waitTime "A" (Some ex_ok)
                                   {| WaitTime := 0 |} ex_sub) _))).
    simpl. lia.
Defined.

(** ** The properties of [Subscribe] *)

(** C2.  In every state of every execution the number of dispatch
    tasks inside their handler call, over all poll loops, is at most
    the limit given to [NewSubscriber]. *)
Theorem concurrency_bound (t : subscriber) (sched : list Action) (s : State) :
  built t → run sched (Subscribe t) = Some s →
  Z.of_nat (count executing (tasks s))
    ≤ ConcurrencyMessageHandleLimit (sub_option t).
Proof.
  intros Hb Hrun.
  destruct (Inv_reachable _ _ _ Hb Hrun) as ([Hc Hle] & _).
  destruct (run_config _ _ _ Hrun) as (_ & _ & Hcap). simpl in Hcap.
  destruct (built_semaphore _ Hb) as [Hsem Hlim].
  rewrite Hsem in Hcap. simpl in Hcap.
  assert (count executing (tasks s) ≤ count holds_permit (tasks s))%nat.
  { apply count_le_weaken. intros x. unfold executing, holds_permit.
    by destruct (t_pc x). }
  lia.
Qed.

Lemma concurrency_bound_witness :
  Z.of_nat (count executing (tasks (final ex_sched_busy ex_sub))) ≤ 1.
Proof.
  apply (concurrency_bound ex_sub ex_sched_busy).
  - apply built_set, built_set,
      (built_new {| ConcurrencyMessageHandleLimit := 1 |}). reflexivity.
  - vm_compute. reflexivity.
Defined.

Lemma receive_enabled i res err s :
  is_Some (step (AReceiveMessages i res err) s) →
  ∃ l, loops s !! i = Some l ∧ l_pc l = LReceive.
Proof.
  intros [s' H]. step_cases H; by eauto.
Qed.

(** C3.  A poll loop issues its next [ReceiveMessages] only when every
    message of the batches it has received has a dispatch task of its
    own (same messages, same order) and every one of these tasks has
    passed [wgMessage.Done()] with a terminal outcome: its report call
    has completed, or it panicked and the panic was recovered. *)
Theorem next_fetch_after_batch (t : subscriber) (sched : list Action)
    (s : State) (i : nat) (l : Loop) (res : list ReceiveMessage) (err : error) :
  built t → run sched (Subscribe t) = Some s →
  loops s !! i = Some l →
  is_Some (step (AReceiveMessages i res err) s) →
  received (l_calls l) = dispatched i (tasks s) ∧
  ∀ k task, tasks s !! k = Some task → t_loop task = i →
            terminal (l_handler l) task.
Proof.
  intros Hb Hrun Hl Hen.
  destruct (receive_enabled _ _ _ _ Hen) as (l' & Hl' & Hpc). simplify_eq.
  destruct (Inv_reachable _ _ _ Hb Hrun)
    as (_ & (_ & _ & Hwl) & Hti & _ & _ & _ & Hdp).
  split.
  - rewrite (Hdp _ _ Hl). unfold undispatched. rewrite Hpc. apply app_nil_r.
  - intros k task Ht Hi.
    pose proof (Hwl _ _ Hl) as Hok. unfold loop_wg_ok in Hok.
    rewrite Hpc in Hok. pose proof (Hok _ _ Ht Hi) as Hp.
    split; [done |].
    destruct (Hti _ _ Ht) as (l2 & Hl2 & Htok). rewrite Hi in Hl2.
    simplify_eq. unfold task_ok in Htok. unfold pending in Hp.
    destruct (t_pc task); try done.
    all: destruct Htok as [(info & Hr & Hc) | (ret & c & Hr & Hc)]; by eauto.
Qed.

Lemma next_fetch_after_batch_witness :
  received [({| rm_QueueID := "urlB" |}, ([ex_m2], nil))]
    = dispatched 0 (tasks (final ex_sched_round ex_sub)) ∧
  ∀ k task, tasks (final ex_sched_round ex_sub) !! k = Some task →
            t_loop task = O →
            terminal {| handler := Some ex_reject;
                        hoption := {| WaitTime := 30 |} |} task.
Proof.
  apply (next_fetch_after_batch ex_sub ex_sched_round
           (final ex_sched_round ex_sub) 0
           {| l_queueName := "B"; l_queueID := "urlB"; l_id := "urlB";
              l_handler := {| handler := Some ex_reject;
                              hoption := {| WaitTime := 30 |} |};
              l_pc := LReceive;
              l_calls := [({| rm_QueueID := "urlB" |}, ([ex_m2], nil))] |}
           [] nil).
  - apply built_set, built_set,
      (built_new {| ConcurrencyMessageHandleLimit := 1 |}). reflexivity.
  - vm_compute. reflexivity.
  - vm_compute. reflexivity.
  - vm_compute. eexists. reflexivity.
Defined.

(** C1.  For every dispatched message (a task of the poll loop [l]):
    the loop's handler and wait time are the registered ones and its
    identifier is the resolved one; before the report statement no
    report call has been made; once it is passed, a handler result of
    nil has led to exactly one call, [ReportSuccessMessage] with the
    message's receipt handle and the queue's identifier, and a non-nil
    result to exactly one call, [ReportFailureMessage] with the receipt
    handle, the identifier and the registered wait time, and to no call
    of the other kind, and no further report call can follow.  At the
    report statement the call is made, whatever the transport answers:
    the step records exactly that call with its arguments and moves the
    task on by the answer.  At the handler call the registered func is
    the one applied, to the message's id and body, and the call followed
    by the report leaves exactly the one call the func's result
    prescribes. *)
Theorem handler_outcome_reported (t : subscriber) (sched : list Action)
    (s : State) (k : nat) (task : Task) (l : Loop) :
  built t → run sched (Subscribe t) = Some s →
  tasks s !! k = Some task → loops s !! t_loop task = Some l →
  (handlers t !! l_queueName l = Some (l_handler l) ∧
   (l_queueName l, (l_id l, nil)) ∈ resolved s) ∧
  (report_made task = false → t_calls task = []) ∧
  (report_made task = true →
     handler_result (l_handler l) (t_msg task) = Returns nil →
     ∃ ret, t_calls task =
       [CallReportSuccessMessage
          {| rs_QueueID := l_id l;
             rs_ReceiptHandle := ReceiptHandle (t_msg task) |} ret]) ∧
  (report_made task = true →
     ∀ m, handler_result (l_handler l) (t_msg task) = Returns (errors_New m) →
     ∃ ret, t_calls task =
       [CallReportFailureMessage
          {| rf_QueueID := l_id l;
             rf_ReceiptHandle := ReceiptHandle (t_msg task);
             rf_WaitTime := WaitTime (hoption (l_handler l)) |} ret]) ∧
  (t_pc task = TReportSuccess →
     handler_result (l_handler l) (t_msg task) = Returns nil ∧
     ∀ ret, ∃ s',
       step (AReport k ret) s = Some s' ∧
       tasks s' !! k = Some
         {| t_loop := t_loop task; t_wg := t_wg task; t_msg := t_msg task;
            t_pc := after_report ret;
            t_calls :=
              [CallReportSuccessMessage
                 {| rs_QueueID := l_id l;
                    rs_ReceiptHandle := ReceiptHandle (t_msg task) |} ret] |}) ∧
  (t_pc task = TReportFailure →
     (∃ m, handler_result (l_handler l) (t_msg task) = Returns (errors_New m)) ∧
     ∀ ret, ∃ s',
       step (AReport k ret) s = Some s' ∧
       tasks s' !! k = Some
         {| t_loop := t_loop task; t_wg := t_wg task; t_msg := t_msg task;
            t_pc := after_report ret;
            t_calls :=
              [CallReportFailureMessage
                 {| rf_QueueID := l_id l;
                    rf_ReceiptHandle := ReceiptHandle (t_msg task);
                    rf_WaitTime := WaitTime (hoption (l_handler l)) |} ret] |}) ∧
  (t_pc task = THandle →
     (∃ s', step (AHandler k) s = Some s' ∧
            tasks s' !! k = Some
              (task_at (after_handler
                          (handler_result (l_handler l) (t_msg task))) task)) ∧
     (∀ f, handler (l_handler l) = Some f →
        handler_result (l_handler l) (t_msg task)
          = f (MessageID (t_msg task)) (Body (t_msg task))) ∧
     (∀ f ret, handler (l_handler l) = Some f →
        f (MessageID (t_msg task)) (Body (t_msg task)) = Returns nil →
        ∃ s' task',
          run [AHandler k; AReport k ret] s = Some s' ∧
          tasks s' !! k = Some task' ∧
          t_calls task' =
            [CallReportSuccessMessage
               {| rs_QueueID := l_id l;
                  rs_ReceiptHandle := ReceiptHandle (t_msg task) |} ret]) ∧
     (∀ f ret m, handler (l_handler l) = Some f →
        f (MessageID (t_msg task)) (Body (t_msg task))
          = Returns (errors_New m) →
        ∃ s' task',
          run [AHandler k; AReport k ret] s = Some s' ∧
          tasks s' !! k = Some task' ∧
          t_calls task' =
            [CallReportFailureMessage
               {| rf_QueueID := l_id l;
                  rf_ReceiptHandle := ReceiptHandle (t_msg task);
                  rf_WaitTime := WaitTime (hoption (l_handler l)) |} ret])) ∧
  (report_made task = true → ∀ ret, step (AReport k ret) s = None).
Proof.
  intros Hb Hrun Ht Hl.
  destruct (Inv_reachable _ _ _ Hb Hrun)
    as (_ & _ & Hti & (_ & _ & Hlo & _) & _).
  destruct (run_config _ _ _ Hrun) as (Hh & _). simpl in Hh.
  destruct (Hlo _ _ Hl) as (Hreg & _ & Hres & _). rewrite Hh in Hreg.
  split; [done |].
  destruct (Hti _ _ Ht) as (l2 & Hl2 & Hok). simplify_eq.
  unfold task_ok, prescribed_report in Hok. unfold report_made.
  assert (Hlt : (k < length (tasks s))%nat) by (by eapply lookup_lt_Some).
  split; [| split; [| split; [| split; [| split; [| split]]]]].
  - destruct (t_pc task); try done; by destruct Hok.
  - intros Hm Hr. rewrite Hr in Hok.
    destruct (t_pc task); try done.
    + destruct Hok as (_ & c & Hc & Hcalls). simplify_eq. by eauto.
    + destruct Hok as [(info & Hc & _) | (ret & c & Hc & Hcalls)];
        simplify_eq; by eauto.
    + destruct Hok as [(info & Hc & _) | (ret & c & Hc & Hcalls)];
        simplify_eq; by eauto.
    + destruct Hok as [(info & Hc & _) | (ret & c & Hc & Hcalls)];
        simplify_eq; by eauto.
  - intros Hm m Hr. rewrite Hr in Hok.
    destruct (t_pc task); try done.
    + destruct Hok as (_ & c & Hc & Hcalls). simplify_eq. by eauto.
    + destruct Hok as [(info & Hc & _) | (ret & c & Hc & Hcalls)];
        simplify_eq; by eauto.
    + destruct Hok as [(info & Hc & _) | (ret & c & Hc & Hcalls)];
        simplify_eq; by eauto.
    + destruct Hok as [(info & Hc & _) | (ret & c & Hc & Hcalls)];
        simplify_eq; by eauto.
  - intros Hpc. rewrite Hpc in Hok. destruct Hok as [Hcalls Hr].
    split; [done |].
    intros ret. eexists. unfold step, step_report. rewrite Ht, Hpc, Hl.
    split; [done |]. simpl. rewrite list_lookup_insert_eq by done.
    unfold task_called. by rewrite Hcalls.
  - intros Hpc. rewrite Hpc in Hok. destruct Hok as [Hcalls Hr].
    split; [done |].
    intros ret. eexists. unfold step, step_report. rewrite Ht, Hpc, Hl.
    split; [done |]. simpl. rewrite list_lookup_insert_eq by done.
    unfold task_called. by rewrite Hcalls.
  - intros Hpc. rewrite Hpc in Hok.
    assert (Hstep : step (AHandler k) s = Some
              (set_task k (task_at (after_handler
                 (handler_result (l_handler l) (t_msg task))) task) s)).
    { unfold step, step_handler. by rewrite Ht, Hpc, Hl. }
    split; [| split; [| split]].
    + eexists. split; [done |]. simpl. by rewrite list_lookup_insert_eq.
    + intros f Hf. unfold handler_result, call_handler. by rewrite Hf.
    + intros f ret Hf Hr.
      assert (Hres' : handler_result (l_handler l) (t_msg task) = Returns nil).
      { unfold handler_result, call_handler. by rewrite Hf. }
      rewrite Hres' in Hstep. simpl in Hstep.
      eexists _, _. simpl. rewrite Hstep.
      unfold step_report. simpl.
      rewrite list_lookup_insert_eq by done. simpl. rewrite Hl.
      split; [done |]. simpl.
      rewrite list_lookup_insert_eq by (by rewrite length_insert).
      split; [done |]. simpl. by rewrite Hok.
    + intros f ret m Hf Hr.
      assert (Hres' : handler_result (l_handler l) (t_msg task)
                      = Returns (errors_New m)).
      { unfold handler_result, call_handler. by rewrite Hf. }
      rewrite Hres' in Hstep. simpl in Hstep.
      eexists _, _. simpl. rewrite Hstep.
      unfold step_report. simpl.
      rewrite list_lookup_insert_eq by done. simpl. rewrite Hl.
      split; [done |]. simpl.
      rewrite list_lookup_insert_eq by (by rewrite length_insert).
      split; [done |]. simpl. by rewrite Hok.
  - intros Hm ret. unfold step, step_report. rewrite Ht.
    by destruct (t_pc task).
Qed.





Lemma send_enabled s tid e :
  main s = MReceiving → sending s tid e →
  ∃ a s', step a s = Some s' ∧ main s' = MReturned e ∧
          delivered s' = delivered s ++ [(tid, e)].
Proof.
  intros Hm Hs. destruct tid as [| i | k]; simpl in Hs.
  - exists ASpawnerSend. eexists. unfold step, step_spawner_send, chFatal_send.
    rewrite Hs. simpl. rewrite Hm. done.
  - destruct Hs as (l & Hl & Hpc).
    exists (ALoopSend i). eexists. unfold step, step_loop_send, chFatal_send.
    rewrite Hl, Hpc. simpl. rewrite Hm. done.
  - destruct Hs as (task & Ht & [Hpc | (info & Hpc & ->)]);
      exists (ATaskSend k); eexists;
      unfold step, step_task_send, chFatal_send;
      rewrite Ht, Hpc; simpl; rewrite Hm; done.
Qed.

(** C4.  [Subscribe] waits until a first value is received from
    [chFatal] and returns that value: while it waits nothing has been
    received, and any goroutine at a send (of whatever queue) can
    complete it and make [Subscribe] return its error; it returns only
    through such a send; the value returned is never nil and is a
    transport error of a resolve, receive or report call or a recovered
    panic; after the return nothing changes it and nothing more is
    received.  And every failing call leads there: a [GetQueueID], a
    [ReceiveMessages] or a report call answering a non-nil error, and a
    handler that panics, take their goroutine to the send of that error
    on [chFatal], which, while [Subscribe] waits, completes and makes
    [Subscribe] return it. *)
Theorem subscribe_returns_first_fatal (t : subscriber) (sched : list Action)
    (s : State) :
  built t → run sched (Subscribe t) = Some s →
  match main s with
  | MReceiving => delivered s = []
  | MReturned e => e ≠ nil ∧ ∃ tid, delivered s = [(tid, e)] ∧ origin s tid e
  end ∧
  (∀ tid e, main s = MReceiving → sending s tid e →
     ∃ a s', step a s = Some s' ∧ main s' = MReturned e ∧
             delivered s' = [(tid, e)]) ∧
  (∀ a s' e, main s = MReceiving → step a s = Some s' →
     main s' = MReturned e → e ≠ nil ∧ ∃ tid, sending s tid e) ∧
  (∀ e sched' s', main s = MReturned e → run sched' s = Some s' →
     main s' = MReturned e ∧ delivered s' = delivered s) ∧
  (∀ todo q b id e, spawner s = SpRange todo → todo !! q = Some b →
     e ≠ nil →
     fails_fatally s (AGetQueueID q id e) ASpawnerSend TidSpawner e) ∧
  (∀ i l res e, loops s !! i = Some l → l_pc l = LReceive → e ≠ nil →
     fails_fatally s (AReceiveMessages i res e) (ALoopSend i) (TidLoop i) e) ∧
  (∀ k task e, tasks s !! k = Some task →
     t_pc task = TReportSuccess ∨ t_pc task = TReportFailure → e ≠ nil →
     fails_fatally s (AReport k e) (ATaskSend k) (TidTask k) e) ∧
  (∀ k task l info, tasks s !! k = Some task →
     loops s !! t_loop task = Some l → t_pc task = THandle →
     handler_result (l_handler l) (t_msg task) = Panics info →
     fails_fatally s (AHandler k) (ATaskSend k) (TidTask k)
       (errors_New info)).
Proof.
  intros Hb Hrun.
  destruct (Inv_reachable _ _ _ Hb Hrun)
    as (_ & _ & Hti & Hri & Hfi & (Hmain & Hor) & _).
  split; [| split; [| split; [| split; [| split; [| split; [| split]]]]]].
  - destruct (main s) as [| e]; [done |].
    destruct Hmain as [tid Hd].
    destruct (Hor tid e) as [Hne Ho]; [rewrite Hd; by left |].
    split; [done |]. by exists tid.
  - intros tid e Hm Hs.
    destruct (send_enabled _ _ _ Hm Hs) as (a & s' & Hst & Hm' & Hd).
    rewrite Hm in Hmain. rewrite Hmain in Hd. by exists a, s'.
  - intros a s' e Hm Hst Hm'.
    destruct (step_delivery _ _ _ Hti Hri Hfi Hst)
      as [[Heq _] | (tid & e' & _ & Hm2 & _ & Hs & Hne & _)].
    + congruence.
    + rewrite Hm' in Hm2. simplify_eq. by eauto.
  - intros e sched' s' Hm Hrun'. by eapply run_after_return.
  - intros todo q b id e Hsp Hq Hne.
    destruct e as [| m]; [done |].
    eexists. unfold step, step_spawner_resolve. rewrite Hsp, Hq. simpl.
    split; [done |]. simpl. repeat split.
    intros Hm. eexists. unfold step_spawner_send, chFatal_send. simpl.
    rewrite Hm. split; [done |]. simpl. split; [done |].
    rewrite Hm in Hmain. by rewrite Hmain.
  - intros i l res e Hl Hpc Hne.
    destruct e as [| m]; [done |].
    assert (Hlt : (i < length (loops s))%nat) by (by eapply lookup_lt_Some).
    eexists. unfold step, step_receive. rewrite Hl, Hpc. simpl.
    split; [done |]. simpl.
    split; [eexists; by rewrite list_lookup_insert_eq |].
    repeat split.
    intros Hm. eexists. unfold step_loop_send, chFatal_send. simpl.
    rewrite list_lookup_insert_eq by done. simpl.
    rewrite Hm. split; [done |]. simpl. split; [done |].
    rewrite Hm in Hmain. by rewrite Hmain.
  - intros k task e Ht Hpc Hne.
    destruct e as [| m]; [done |].
    assert (Hlt : (k < length (tasks s))%nat) by (by eapply lookup_lt_Some).
    destruct (Hti _ _ Ht) as (l & Hl & _).
    assert (Hst : ∃ c, step (AReport k (errors_New m)) s = Some
              (set_task k (task_called c (TSendFatal (errors_New m)) task) s)).
    { unfold step, step_report. rewrite Ht, Hl.
      destruct Hpc as [Hpc | Hpc]; rewrite Hpc; by eexists. }
    destruct Hst as [c Hst]. eexists. split; [exact Hst |]. simpl.
    split; [eexists; rewrite list_lookup_insert_eq by done; by eauto |].
    repeat split.
    intros Hm. eexists. unfold step_task_send, chFatal_send. simpl.
    rewrite list_lookup_insert_eq by done. simpl.
    rewrite Hm. split; [done |]. simpl. split; [done |].
    rewrite Hm in Hmain. by rewrite Hmain.
  - intros k task l info Ht Hl Hpc Hr.
    assert (Hlt : (k < length (tasks s))%nat) by (by eapply lookup_lt_Some).
    eexists. unfold step, step_handler. rewrite Ht, Hpc, Hl, Hr. simpl.
    split; [done |]. simpl.
    split; [eexists; rewrite list_lookup_insert_eq by done; by eauto |].
    repeat split.
    intros Hm. eexists. unfold step_task_send, chFatal_send. simpl.
    rewrite list_lookup_insert_eq by done. simpl.
    rewrite Hm. split; [done |]. simpl. split; [done |].
    rewrite Hm in Hmain. by rewrite Hmain.
Qed.

(** C5.  A handler returning a non-nil error leaves [Subscribe] and
    [chFatal] untouched and only moves its task to the
    [ReportFailureMessage] call; every value received from [chFatal]
    is a transport error or a recovered panic; and a task whose handler
    returned an error delivers nothing but a non-nil answer of its own
    [ReportFailureMessage] call. *)
Theorem handler_failure_not_fatal (t : subscriber) (sched : list Action)
    (s : State) :
  built t → run sched (Subscribe t) = Some s →
  (∀ k task l m,
     tasks s !! k = Some task → loops s !! t_loop task = Some l →
     t_pc task = THandle →
     handler_result (l_handler l) (t_msg task) = Returns (errors_New m) →
     ∃ s', step (AHandler k) s = Some s' ∧
           main s' = main s ∧ delivered s' = delivered s ∧
           tasks s' !! k = Some (task_at TReportFailure task)) ∧
  (∀ tid e, (tid, e) ∈ delivered s → origin s tid e) ∧
  (∀ k task l m e,
     tasks s !! k = Some task → loops s !! t_loop task = Some l →
     handler_result (l_handler l) (t_msg task) = Returns (errors_New m) →
     (TidTask k, e) ∈ delivered s →
     e ≠ nil ∧ ∃ args, t_calls task = [CallReportFailureMessage args e]).
Proof.
  intros Hb Hrun.
  destruct (Inv_reachable _ _ _ Hb Hrun)
    as (_ & _ & Hti & Hri & Hfi & (Hmain & Hor) & _).
  split; [| split].
  - intros k task l m Ht Hl Hpc Hr. eexists.
    unfold step, step_handler. rewrite Ht, Hpc, Hl, Hr. simpl.
    unfold after_handler. simpl.
    repeat split; try done. simpl. rewrite list_lookup_insert_eq; [done |].
    by eapply lookup_lt_Some.
  - intros tid e Hin. by destruct (Hor _ _ Hin).
  - intros k task l m e Ht Hl Hr Hin.
    destruct (Hor _ _ Hin) as [Hne Ho]. split; [done |].
    simpl in Ho. destruct Ho as (task' & l' & Ht' & Hl' & Hpast & Hcase).
    simplify_eq.
    destruct Hcase as [(info & Hp & _) | (c & Hc & Hret)]; [congruence |].
    destruct (Hti _ _ Ht) as (l2 & Hl2 & Hok). simplify_eq.
    unfold task_ok, prescribed_report in Hok. unfold past_sends in Hpast.
    rewrite Hr in Hok.
    destruct (t_pc task); try done.
    all: destruct Hok as [(info & Hp & _) | (ret & c' & Hp & Hc')];
      [done |]; rewrite Hc in Hc'; simplify_eq/=; by eauto.
Qed.

Lemma step_spawner_stopped a s s' err :
  spawner_stopped s err → step a s = Some s' →
  spawner_stopped s' err ∧
  l_queueName <$> loops s' = l_queueName <$> loops s.
Proof.
  unfold spawner_stopped. intros Hs H.
  destruct a; step_cases H.
  all: try (erewrite loop_names_insert; [| eassumption | done]).
  all: try (split; [| done]).
  all: try (destruct Hs as [Hs | [Hs Hin]]; simplify_eq; [by left | right];
            split; [done |]; rewrite ?elem_of_app; by eauto).
  all: try (destruct Hs as [Hs | [Hs Hin]]; by simplify_eq).
  destruct Hs as [Hs | [Hs Hin]]; simplify_eq.
  right. split; [done |]. apply elem_of_app. right. by left.
Qed.

Lemma run_spawner_stopped sched s s' err :
  spawner_stopped s err → run sched s = Some s' →
  spawner_stopped s' err ∧
  l_queueName <$> loops s' = l_queueName <$> loops s.
Proof.
  revert s. induction sched as [|a sched IH]; intros s Hs H; simplify_eq/=.
  - done.
  - destruct (step a s) as [s1|] eqn:Hst; [| done].
    destruct (step_spawner_stopped _ _ _ _ Hs Hst) as [Hs1 Hn1].
    destruct (IH _ Hs1 H) as [Hs' Hn']. split; [done | congruence].
Qed.

(** C10, with delivery as the program has it.  When [GetQueueID] fails
    the spawner starts no poll loop for that queue and goes to the send
    of the error on [chFatal].
    While [Subscribe] still waits the send completes, [Subscribe]
    returns that error and the spawner returns; once [Subscribe] has
    returned the send blocks.  In every continuation the spawner is at
    that send or has returned after delivering the error, the poll
    loops are those started before the failure, and no queue that was
    still to be visited ever gets one. *)
Theorem resolve_failure_stops_spawning (t : subscriber) (sched : list Action)
    (s : State) (queueName id : string) (err : error) (s1 : State) :
  built t → run sched (Subscribe t) = Some s →
  step (AGetQueueID queueName id err) s = Some s1 → err ≠ nil →
  spawner s1 = SpSendFatal err ∧ loops s1 = loops s ∧
  (main s1 = MReceiving →
     ∃ s2, step ASpawnerSend s1 = Some s2 ∧ main s2 = MReturned err ∧
           spawner s2 = SpExit) ∧
  (∀ e, main s1 = MReturned e → step ASpawnerSend s1 = None) ∧
  ∀ sched' s2, run sched' s1 = Some s2 →
    (spawner s2 = SpSendFatal err ∨
     (spawner s2 = SpExit ∧ (TidSpawner, err) ∈ delivered s2)) ∧
    l_queueName <$> loops s2 = l_queueName <$> loops s ∧
    ∀ todo q b, spawner s = SpRange todo → todo !! q = Some b →
                q ∉ l_queueName <$> loops s2.
Proof.
  intros Hb Hrun Hst Hne.
  destruct (Inv_reachable _ _ _ Hb Hrun)
    as (_ & _ & _ & (_ & _ & Hlo & Hsp) & _).
  assert (Hs1 : spawner s1 = SpSendFatal err ∧ loops s1 = loops s).
  { step_cases Hst. }
  destruct Hs1 as [Hs1 Hl1].
  split; [done |]. split; [done |]. split; [| split].
  - intros Hm. eexists. unfold step, step_spawner_send, chFatal_send.
    rewrite Hs1. simpl. rewrite Hm. done.
  - intros e Hm. unfold step, step_spawner_send, chFatal_send.
    rewrite Hs1. simpl. by rewrite Hm.
  - intros sched' s2 Hrun'.
    destruct (run_spawner_stopped sched' s1 s2 err) as [Hst2 Hn2];
      [by left | done |].
    split; [done |]. rewrite Hn2, Hl1. split; [done |].
    intros todo q b Htodo Hq Hin.
    unfold spawner_ok in Hsp. rewrite Htodo in Hsp.
    destruct (Hsp _ _ Hq) as [_ Hfresh]. apply Hfresh.
    apply list_elem_of_fmap in Hin as (l & -> & Hl).
    apply list_elem_of_lookup in Hl as [i Hi].
    by eapply loop_name_resolved.
Qed.

(** A failed resolution whose error is never delivered and whose
    spawner never returns: [Subscribe] has returned the receive error
    of "A", so the spawner stays at its send for ever. *)
Lemma resolve_failure_never_delivered :
  run ex_sched_stuck (Subscribe ex_sub) = Some (final ex_sched_stuck ex_sub) ∧
  spawner (final ex_sched_stuck ex_sub)
    = SpSendFatal (errors_New "no such queue") ∧
  ∀ sched' s', run sched' (final ex_sched_stuck ex_sub) = Some s' →
    spawner s' = SpSendFatal (errors_New "no such queue") ∧
    main s' = MReturned (errors_New "network down") ∧
    delivered s' = [(TidLoop 0, errors_New "network down")].
Proof.
  split; [vm_compute; reflexivity |]. split; [vm_compute; reflexivity |].
  intros sched' s' Hrun.
  assert (Hm : main (final ex_sched_stuck ex_sub)
               = MReturned (errors_New "network down"))
    by (vm_compute; reflexivity).
  destruct (run_after_return _ _ _ _ Hm Hrun) as [Hm' Hd'].
  split; [| split; [done |]].
  - apply (run_blocked sched' _ s' _ TidSpawner _ Hm); [| done].
    vm_compute. reflexivity.
  - rewrite Hd'. vm_compute. reflexivity.
Qed.

(** C9, with delivery as the program has it.  [SetHandler] accepts a
    nil func: it returns nil and stores the binding.  A task of a
    queue bound to a nil func panics at
    the handler call with the nil dereference, which is recovered: the
    task goes to the send of that error on [chFatal], and [Subscribe]
    is not affected by the panic itself.  While [Subscribe] still waits
    the send completes and [Subscribe] returns that error; once
    [Subscribe] has returned the send blocks. *)
Theorem nil_handler_recovered (queueName : string) (opt : HandlerOption)
    (t0 t : subscriber) (sched : list Action) (s : State) (k : nat)
    (task : Task) (l : Loop) :
  0 ≤ WaitTime opt →
  built t → run sched (Subscribe t) = Some s →
  tasks s !! k = Some task → loops s !! t_loop task = Some l →
  handler (l_handler l) = None →
  ((SetHandler queueName None opt t0).2 = nil ∧
   handlers (SetHandler queueName None opt t0).1 !! queueName
     = Some {| handler := None; hoption := opt |}) ∧
  (t_pc task = THandle →
     ∃ s', step (AHandler k) s = Some s' ∧
           tasks s' !! k = Some (task_at (TRecover nil_dereference) task) ∧
           main s' = main s ∧ delivered s' = delivered s) ∧
  (∀ info, t_pc task = TRecover info →
     info = nil_dereference ∧
     (main s = MReceiving →
        ∃ s', step (ATaskSend k) s = Some s' ∧
              main s' = MReturned (errors_New nil_dereference) ∧
              tasks s' !! k = Some (task_at TDone task)) ∧
     (∀ e, main s = MReturned e → step (ATaskSend k) s = None)).
Proof.
  intros Hw Hb Hrun Ht Hl Hnil.
  pose proof (lookup_lt_Some _ _ _ Ht) as Hlt.
  split; [| split].
  - unfold SetHandler. destruct (Z.ltb_spec (WaitTime opt) 0); [lia |].
    simpl. split; [done | apply lookup_insert_eq].
  - intros Hpc. eexists. unfold step, step_handler. rewrite Ht, Hpc, Hl.
    unfold handler_result, call_handler. rewrite Hnil. simpl.
    repeat split; try done. simpl. by rewrite list_lookup_insert_eq.
  - intros info Hpc.
    destruct (Inv_reachable _ _ _ Hb Hrun) as (_ & _ & Hti & _).
    destruct (Hti _ _ Ht) as (l2 & Hl2 & Hok). simplify_eq.
    unfold task_ok in Hok. rewrite Hpc in Hok. destruct Hok as [_ Hr].
    unfold handler_result, call_handler in Hr. rewrite Hnil in Hr.
    simplify_eq. split; [done |]. split.
    + intros Hm. eexists. unfold step, step_task_send, chFatal_send.
      rewrite Ht, Hpc. simpl. rewrite Hm. repeat split; try done.
      simpl. by rewrite list_lookup_insert_eq.
    + intros e Hm. unfold step, step_task_send, chFatal_send.
      rewrite Ht, Hpc. simpl. by rewrite Hm.
Qed.

(** A recovered nil-func panic whose error is never delivered:
    [Subscribe] has returned the receive error of "A", so the task
    stays at its send for ever. *)
Lemma nil_handler_error_never_delivered :
  run ex_sched_nil (Subscribe ex_sub_nil) = Some (final ex_sched_nil ex_sub_nil) ∧
  sending (final ex_sched_nil ex_sub_nil) (TidTask 0)
    (errors_New nil_dereference) ∧
  ∀ sched' s', run sched' (final ex_sched_nil ex_sub_nil) = Some s' →
    sending s' (TidTask 0) (errors_New nil_dereference) ∧
    main s' = MReturned (errors_New "network down") ∧
    delivered s' = [(TidLoop 0, errors_New "network down")].
Proof.
  assert (Hs : sending (final ex_sched_nil ex_sub_nil) (TidTask 0)
                 (errors_New nil_dereference)).
  { eexists. split; [vm_compute; reflexivity |]. right.
    exists nil_dereference. split; reflexivity. }
  split; [vm_compute; reflexivity |]. split; [done |].
  intros sched' s' Hrun.
  assert (Hm : main (final ex_sched_nil ex_sub_nil)
               = MReturned (errors_New "network down"))
    by (vm_compute; reflexivity).
  destruct (run_after_return _ _ _ _ Hm Hrun) as [Hm' Hd'].
  split; [| split; [done |]].
  - by apply (run_blocked sched' _ s' _ (TidTask 0) _ Hm).
  - rewrite Hd'. vm_compute. reflexivity.
Qed.



Lemma handler_outcome_reported_witness :
  (∃ s' task',
     run [AHandler 0; AReport 0 nil] (final ex_sched_ack ex_sub) = Some s' ∧
     tasks s' !! 0%nat = Some task' ∧
     t_calls task' =
       [CallReportSuccessMessage
          {| rs_QueueID := "urlA"; rs_ReceiptHandle := "r1" |} nil]) ∧
  (∃ s' task',
     run [AHandler 0; AReport 0 nil] (final ex_sched_nack ex_sub) = Some s' ∧
     tasks s' !! 0%nat = Some task' ∧
     t_calls task' =
       [CallReportFailureMessage
          {| rf_QueueID := "urlB"; rf_ReceiptHandle := "r2";
             rf_WaitTime := 30 |} nil]) ∧
  (∃ ret, t_calls ex_round_task =
     [CallReportFailureMessage
        {| rf_QueueID := "urlB"; rf_ReceiptHandle := "r2";
           rf_WaitTime := 30 |} ret]).
Proof.
  split; [| split].
  - refine (proj1 (proj2 (proj2
              (proj1 (proj2 (proj2 (proj2 (proj2 (proj2 (proj2
                 (handler_outcome_reported ex_sub ex_sched_ack
                    (final ex_sched_ack ex_sub) 0 ex_ack_task ex_ack_loop
                    _ _ _ _))))))) _)))
              ex_ok nil _ _).
    + apply built_set, built_set,
        (built_new {| ConcurrencyMessageHandleLimit := 1 |}). reflexivity.
    + vm_compute. reflexivity.
    + vm_compute. reflexivity.
    + vm_compute. reflexivity.
    + reflexivity.
    + reflexivity.
    + reflexivity.
  - refine (proj2 (proj2 (proj2
              (proj1 (proj2 (proj2 (proj2 (proj2 (proj2 (proj2
                 (handler_outcome_reported ex_sub ex_sched_nack
                    (final ex_sched_nack ex_sub) 0 ex_nack_task ex_nack_loop
                    _ _ _ _))))))) _)))
              ex_reject nil "rejected" _ _).
    + apply built_set, built_set,
        (built_new {| ConcurrencyMessageHandleLimit := 1 |}). reflexivity.
    + vm_compute. reflexivity.
    + vm_compute. reflexivity.
    + vm_compute. reflexivity.
    + reflexivity.
    + reflexivity.
    + reflexivity.
  - refine (proj1 (proj2 (proj2 (proj2
              (handler_outcome_reported ex_sub ex_sched_round
                 (final ex_sched_round ex_sub) 0 ex_round_task ex_round_loop
                 _ _ _ _)))) _ "rejected" _).
    + apply built_set, built_set,
        (built_new {| ConcurrencyMessageHandleLimit := 1 |}). reflexivity.
    + vm_compute. reflexivity.
    + vm_compute. reflexivity.
    + vm_compute. reflexivity.
    + reflexivity.
    + reflexivity.
Defined.


Lemma subscribe_returns_first_fatal_witness :
  match main (final ex_sched_stuck ex_sub) with
  | MReceiving => delivered (final ex_sched_stuck ex_sub) = []
  | MReturned e =>
      e ≠ nil ∧
      ∃ tid, delivered (final ex_sched_stuck ex_sub) = [(tid, e)] ∧
             origin (final ex_sched_stuck ex_sub) tid e
  end ∧
  fails_fatally (final ex_sched_started ex_sub)
    (AReceiveMessages 0 [] (errors_New "network down")) (ALoopSend 0)
    (TidLoop 0) (errors_New "network down") ∧
  fails_fatally (final ex_sched_rejected ex_sub)
    (AReport 0 (errors_New "throttled")) (ATaskSend 0)
    (TidTask 0) (errors_New "throttled").
Proof.
  split; [| split].
  - refine (proj1 (subscribe_returns_first_fatal ex_sub ex_sched_stuck
                     (final ex_sched_stuck ex_sub) _ _)).
    + apply built_set, built_set,
        (built_new {| ConcurrencyMessageHandleLimit := 1 |}). reflexivity.
    + vm_compute. reflexivity.
  - refine (proj1 (proj2 (proj2 (proj2 (proj2 (proj2
              (subscribe_returns_first_fatal ex_sub ex_sched_started
                 (final ex_sched_started ex_sub) _ _))))))
              0%nat ex_started_loop [] (errors_New "network down") _ _ _).
    + apply built_set, built_set,
        (built_new {| ConcurrencyMessageHandleLimit := 1 |}). reflexivity.
    + vm_compute. reflexivity.
    + vm_compute. reflexivity.
    + reflexivity.
    + discriminate.
  - refine (proj1 (proj2 (proj2 (proj2 (proj2 (proj2 (proj2
              (subscribe_returns_first_fatal ex_sub ex_sched_rejected
                 (final ex_sched_rejected ex_sub) _ _)))))))
              0%nat ex_rejected_task (errors_New "throttled") _ _ _).
    + apply built_set, built_set,
        (built_new {| ConcurrencyMessageHandleLimit := 1 |}). reflexivity.
    + vm_compute. reflexivity.
    + vm_compute. reflexivity.
    + right. reflexivity.
    + discriminate.
Defined.

Lemma handler_failure_not_fatal_witness :
  (∃ s', step (AHandler 0) (final ex_sched_nack ex_sub) = Some s' ∧
         main s' = main (final ex_sched_nack ex_sub) ∧
         delivered s' = delivered (final ex_sched_nack ex_sub) ∧
         tasks s' !! 0%nat = Some (task_at TReportFailure ex_nack_task)) ∧
  (errors_New "throttled" ≠ nil ∧
   ∃ args, t_calls ex_refused_task =
             [CallReportFailureMessage args (errors_New "throttled")]) ∧
  origin (final ex_sched_stuck ex_sub) (TidLoop 0) (errors_New "network down").
Proof.
  split; [| split].
  - refine (proj1 (handler_failure_not_fatal ex_sub ex_sched_nack
                     (final ex_sched_nack ex_sub) _ _)
              0%nat ex_nack_task ex_nack_loop "rejected" _ _ _ _).
    + apply built_set, built_set,
        (built_new {| ConcurrencyMessageHandleLimit := 1 |}). reflexivity.
    + vm_compute. reflexivity.
    + vm_compute. reflexivity.
    + vm_compute. reflexivity.
    + reflexivity.
    + reflexivity.
  - refine (proj2 (proj2 (handler_failure_not_fatal ex_sub
                            ex_sched_nack_refused
                            (final ex_sched_nack_refused ex_sub) _ _))
              0%nat ex_refused_task
              (loop_at (LDispatch 0 []) ex_nack_loop) "rejected"
              (errors_New "throttled") _ _ _ _).
    + apply built_set, built_set,
        (built_new {| ConcurrencyMessageHandleLimit := 1 |}). reflexivity.
    + vm_compute. reflexivity.
    + vm_compute. reflexivity.
    + vm_compute. reflexivity.
    + reflexivity.
    + vm_compute. constructor.
  - refine (proj1 (proj2 (handler_failure_not_fatal ex_sub ex_sched_stuck
                            (final ex_sched_stuck ex_sub) _ _))
              (TidLoop 0) (errors_New "network down") _).
    + apply built_set, built_set,
        (built_new {| ConcurrencyMessageHandleLimit := 1 |}). reflexivity.
    + vm_compute. reflexivity.
    + vm_compute. constructor.
Defined.

Lemma nil_handler_recovered_witness :
  step (ATaskSend 0) (final ex_sched_nil ex_sub_nil) = None.
Proof.
  refine (proj2 (proj2 (proj2 (proj2
            (nil_handler_recovered "N" {| WaitTime := 0 |} (ex_new 1)
               ex_sub_nil ex_sched_nil (final ex_sched_nil ex_sub_nil) 0
               ex_nil_task ex_nil_loop _ _ _ _ _ _)) nil_dereference _))
            (errors_New "network down") _).
  - simpl. lia.
  - apply built_set, built_set,
      (built_new {| ConcurrencyMessageHandleLimit := 1 |}). reflexivity.
  - vm_compute. reflexivity.
  - vm_compute. reflexivity.
  - vm_compute. reflexivity.
  - reflexivity.
  - reflexivity.
  - vm_compute. reflexivity.
Defined.

Lemma resolve_failure_stops_spawning_witness :
  spawner (final ex_sched_failed ex_sub)
    = SpSendFatal (errors_New "no such queue").
Proof.
  refine (proj1 (resolve_failure_stops_spawning ex_sub ex_sched_before
                   (final ex_sched_before ex_sub) "B" ""
                   (errors_New "no such queue")
                   (final ex_sched_failed ex_sub) _ _ _ _)).
  - apply built_set, built_set,
      (built_new {| ConcurrencyMessageHandleLimit := 1 |}). reflexivity.
  - vm_compute. reflexivity.
  - vm_compute. reflexivity.
  - discriminate.
Defined.

(** ** Further properties of [Subscribe] *)



(** X2.  [t.semaphore <- 1] of a dispatch task goes through exactly
    when fewer tasks hold a permit than the limit given to
    [NewSubscriber]; with the limit reached the send blocks. *)
Theorem acquire_enabled_below_limit (t : subscriber) (sched : list Action)
    (s : State) (k : nat) (task : Task) :
  built t → run sched (Subscribe t) = Some s →
  tasks s !! k = Some task → t_pc task = TAcquire →
  (Z.of_nat (count holds_permit (tasks s))
     < ConcurrencyMessageHandleLimit (sub_option t) →
   ∃ s', step (AAcquire k) s = Some s' ∧
         tasks s' !! k = Some (task_at THandle task) ∧
         count holds_permit (tasks s') = S (count holds_permit (tasks s))) ∧
  (Z.of_nat (count holds_permit (tasks s))
     = ConcurrencyMessageHandleLimit (sub_option t) →
   step (AAcquire k) s = None).
Proof.
  intros Hb Hrun Ht Hpc.
  pose proof (Inv_reachable _ _ _ Hb Hrun) as Hinv.
  pose proof Hinv as ([Hc Hle] & _).
  destruct (run_config _ _ _ Hrun) as (_ & _ & Hcap). simpl in Hcap.
  destruct (built_semaphore _ Hb) as [Hsem Hlim].
  rewrite Hsem in Hcap. simpl in Hcap.
  assert (Hlt : (k < length (tasks s))%nat) by (by eapply lookup_lt_Some).
  split.
  - intros Hbelow.
    assert (Hst : step (AAcquire k) s = Some
              (set_semaphore
                 {| chan_cap := chan_cap (semaphore (sub s));
                    chan_buf := chan_buf (semaphore (sub s)) ++ [1] |}
                 (set_task k (task_at THandle task) s))).
    { unfold step, step_acquire, chan_send. rewrite Ht, Hpc.
      destruct (Nat.ltb_spec (length (chan_buf (semaphore (sub s))))
                  (chan_cap (semaphore (sub s)))); [done | lia]. }
    eexists. split; [exact Hst |].
    split; [simpl; by rewrite list_lookup_insert_eq |].
    destruct (Inv_step _ _ _ Hinv Hst) as ([Hc' _] & _).
    rewrite <- Hc', <- Hc. simpl. rewrite length_app. simpl. lia.
  - intros Hfull. unfold step, step_acquire, chan_send. rewrite Ht, Hpc.
    destruct (Nat.ltb_spec (length (chan_buf (semaphore (sub s))))
                (chan_cap (semaphore (sub s)))); [lia | done].
Qed.

(** X3.  [Subscribe] on a subscriber with no handler registered (as
    [NewSubscriber] returns it) starts nothing and never returns: no
    goroutine has a statement to execute, and the caller stays at its
    receive from [chFatal]. *)
Theorem subscribe_without_handlers_blocks (t : subscriber)
    (sched : list Action) (s : State) :
  handlers t = ∅ → run sched (Subscribe t) = Some s →
  sched = [] ∧ s = Subscribe t ∧ main s = MReceiving ∧
  ∀ a, step a s = None.
Proof.
  intros He Hrun.
  assert (Hno : ∀ a, step a (Subscribe t) = None).
  { intros a. destruct a; simpl; try done.
    unfold step_spawner_resolve. simpl. by rewrite He, lookup_empty. }
  destruct sched as [|a sched]; simplify_eq/=.
  - done.
  - by rewrite Hno in Hrun.
Qed.


Lemma coverage_inv_step a s s' :
  coverage_inv s → step a s = Some s' → coverage_inv s'.
Proof.
  unfold coverage_inv. intros Hinv H.
  destruct (step_config _ _ _ H) as (Hh & _).
  destruct (spawner s') as [todo' | |] eqn:Hsp'; [| done | done].
  intros q b Hq. rewrite Hh in Hq.
  assert (Hcl := λ i l, loops_closure_step a s s' i l H).
  destruct a.
  2-12: assert (Hsp : spawner s = SpRange todo')
          by (step_cases H; congruence);
        rewrite Hsp in Hinv;
        destruct (Hinv _ _ Hq) as [Hl | (ix & lx & Hl & Hn)]; [by left |];
        right; destruct (Hcl _ _ Hl) as (lx' & Hl' & Hn' & _);
        exists ix, lx'; split; [done | congruence].
  unfold step, step_spawner_resolve in H.
  destruct (spawner s) as [todo | |] eqn:Hsp; [| done | done].
  destruct (todo !! queueName) as [h|] eqn:Hh0; [| done].
  destruct (is_nil err); simplify_eq/=.
  destruct (decide (q = queueName)) as [-> | Hne].
  - right. exists (length (loops s)). eexists.
    rewrite lookup_app_r by lia. rewrite Nat.sub_diag. by split.
  - destruct (Hinv _ _ Hq) as [Hl | (i & l & Hl & Hn)].
    + left. by rewrite lookup_delete_ne.
    + right. exists i, l. split; [| done].
      rewrite lookup_app_l; [done | by eapply lookup_lt_Some].
Qed.

Lemma coverage_inv_run sched s s' :
  coverage_inv s → run sched s = Some s' → coverage_inv s'.
Proof.
  revert s. induction sched as [|a sched IH]; intros s Hinv H; simplify_eq/=.
  - done.
  - destruct (step a s) as [s1|] eqn:Hs; [| done].
    eapply IH; [| done]. by eapply coverage_inv_step.
Qed.

(** X5.  While the spawner ranges over [t.handlers] (and when it has
    finished), every registered queue is either still to visit, and
    then has no poll loop, or has been visited, and then has exactly
    one poll loop, which holds the registered binding. *)
Theorem every_queue_gets_one_loop (t : subscriber) (sched : list Action)
    (s : State) (todo : gmap string Binding) (q : string) (b : Binding) :
  built t → run sched (Subscribe t) = Some s →
  spawner s = SpRange todo → handlers t !! q = Some b →
  (todo !! q = Some b ∧ q ∉ l_queueName <$> loops s) ∨
  (todo !! q = None ∧
   ∃ i l, loops s !! i = Some l ∧ l_queueName l = q ∧ l_handler l = b ∧
          ∀ j l', loops s !! j = Some l' → l_queueName l' = q → j = i).
Proof.
  intros Hb Hrun Hsp Hq.
  destruct (Inv_reachable _ _ _ Hb Hrun)
    as (_ & _ & _ & (_ & Hnd & Hlo & Hso) & _).
  destruct (run_config _ _ _ Hrun) as (Hh & _). simpl in Hh.
  assert (Hcov : coverage_inv s).
  { eapply coverage_inv_run; [| done].
    unfold coverage_inv. simpl. intros ? ? ?. by left. }
  unfold coverage_inv in Hcov. unfold spawner_ok in Hso.
  rewrite Hsp in Hcov, Hso. rewrite Hh in Hcov.
  assert (Hex : ∀ i l b', loops s !! i = Some l → l_queueName l = q →
                          todo !! q = Some b' → False).
  { intros i l b' Hl Hn Ht. destruct (Hso _ _ Ht) as [_ Hnot].
    apply Hnot. rewrite <- Hn. by eapply loop_name_resolved. }
  destruct (Hcov _ _ Hq) as [Ht | (i & l & Hl & Hn)].
  - left. split; [done |].
    intros (l & Hn & Hin)%list_elem_of_fmap.
    apply list_elem_of_lookup in Hin as [i Hl]. by eapply Hex.
  - right. split.
    + destruct (todo !! q) as [b'|] eqn:Ht; [| done].
      exfalso. by eapply Hex.
    + exists i, l. split; [done |]. split; [done |]. split.
      * destruct (Hlo _ _ Hl) as (Hreg & _). rewrite Hh, Hn in Hreg.
        congruence.
      * intros j l' Hl' Hn'.
        eapply (NoDup_lookup _ j i q Hnd);
          rewrite list_lookup_fmap; [by rewrite Hl'; simpl; f_equal |
                                     by rewrite Hl; simpl; f_equal].
Qed.

Lemma loop_stopped_step a s s' i l :
  loops s !! i = Some l → loop_stopped (l_pc l) = true →
  step a s = Some s' →
  ∃ l', loops s' !! i = Some l' ∧ loop_stopped (l_pc l') = true ∧
        l_calls l' = l_calls l ∧
        dispatched i (tasks s') = dispatched i (tasks s).
Proof.
  intros Hl Hst H.
  destruct a; step_cases H.
  all: try (erewrite dispatched_insert; [| eassumption | done | done]).
  all: try (rewrite lookup_app_l by (by eapply lookup_lt_Some)).
  all: try by eauto.
  all: try match goal with
       | Hj : loops _ !! ?j = Some _ |- context [<[?j := _]> _ !! ?ii] =>
           destruct (decide (ii = j)) as [-> | Hne];
           [ simplify_eq; rewrite list_lookup_insert_eq
               by (by eapply lookup_lt_Some)
           | rewrite list_lookup_insert_ne by done ]
       end.
  all: try (simplify_eq/=; by eauto).
  all: try (match goal with Hp : l_pc ?x = _ |- _ =>
              rewrite Hp in Hst; simplify_eq/= end).
  all: try (rewrite dispatched_app; simpl;
            match goal with
            | |- context [Nat.eqb ?x ?y] =>
                destruct (Nat.eqb_spec x y); [congruence |]
            end; rewrite app_nil_r; by eauto).
  all: try by eauto.
Qed.

Lemma loop_stopped_run sched s s' i l :
  loops s !! i = Some l → loop_stopped (l_pc l) = true →
  run sched s = Some s' →
  ∃ l', loops s' !! i = Some l' ∧ loop_stopped (l_pc l') = true ∧
        l_calls l' = l_calls l ∧
        dispatched i (tasks s') = dispatched i (tasks s).
Proof.
  revert s l. induction sched as [|a sched IH]; intros s l Hl Hst H;
    simplify_eq/=.
  - by eauto.
  - destruct (step a s) as [s1|] eqn:Hs; [| done].
    destruct (loop_stopped_step _ _ _ _ _ Hl Hst Hs)
      as (l1 & Hl1 & Hst1 & Hc1 & Hd1).
    destruct (IH _ _ Hl1 Hst1 H) as (l' & Hl' & Hst' & Hc' & Hd').
    exists l'. split; [done |]. split; [done |]. split; congruence.
Qed.

(** X6.  A [ReceiveMessages] call that returns an error ends its poll
    loop: whatever runs afterwards, the loop makes no further
    [ReceiveMessages] call and starts no dispatch task, and the
    messages returned along with the error are not dispatched. *)
Theorem failed_receive_ends_loop (s : State) (i : nat) (l : Loop)
    (res : list ReceiveMessage) (err : error) (sched : list Action)
    (s' : State) :
  loops s !! i = Some l → l_pc l = LReceive → err ≠ nil →
  run (AReceiveMessages i res err :: sched) s = Some s' →
  ∃ l', loops s' !! i = Some l' ∧ loop_stopped (l_pc l') = true ∧
        l_calls l' = l_calls l ++ [({| rm_QueueID := l_queueID l |}, (res, err))] ∧
        dispatched i (tasks s') = dispatched i (tasks s) ∧
        ∀ res' err', step (AReceiveMessages i res' err') s' = None.
Proof.
  intros Hl Hpc Hne Hrun. cbn [run] in Hrun.
  destruct err as [|m]; [done |].
  assert (Hlt : (i < length (loops s))%nat) by (by eapply lookup_lt_Some).
  unfold step, step_receive in Hrun. rewrite Hl, Hpc in Hrun.
  simpl in Hrun.
  match type of Hrun with run _ ?s1 = _ =>
    assert (Hl1 : loops s1 !! i = Some
              (loop_called {| rm_QueueID := l_queueID l |}
                 (res, errors_New m) (LSendFatal (errors_New m)) l))
      by (simpl; by rewrite list_lookup_insert_eq)
  end.
  destruct (loop_stopped_run _ _ _ _ _ Hl1 eq_refl Hrun)
    as (l' & Hl' & Hst' & Hc' & Hd').
  exists l'. split; [done |]. split; [done |]. split; [done |].
  split; [done |].
  intros res' err'. unfold step, step_receive. rewrite Hl'.
  by destruct (l_pc l').
Qed.

Lemma blocked_task_step a s s' e k task :
  main s = MReturned e → tasks s !! k = Some task →
  (∃ e', sending s (TidTask k) e') →
  step a s = Some s' → tasks s' !! k = Some task.
Proof.
  intros Hm Ht (e' & task' & Ht' & Hpc) H. simplify_eq.
  assert (Hpc' : ∀ pc, t_pc task = pc →
            match pc with TSendFatal _ | TRecover _ => True | _ => False end).
  { intros pc <-. destruct Hpc as [-> | (info & -> & _)]; done. }
  destruct a; step_cases H.
  all: try done.
  all: try (rewrite lookup_app_l by (by eapply lookup_lt_Some); done).
  all: match goal with
       | Hj : tasks _ !! ?j = Some _ |- <[?j := _]> _ !! ?kk = _ =>
           destruct (decide (kk = j)) as [-> | Hne];
           [ simplify_eq;
             match goal with Hp : t_pc _ = _ |- _ =>
               by destruct (Hpc' _ Hp) end
           | by rewrite list_lookup_insert_ne by done ]
       end.
Qed.

Lemma pending_loop_step a s s' k task l :
  Inv s → tasks s !! k = Some task → pending task = true →
  loops s !! t_loop task = Some l → step a s = Some s' →
  ∃ l', loops s' !! t_loop task = Some l' ∧ l_calls l' = l_calls l.
Proof.
  intros (_ & (_ & _ & Hwl) & _) Ht Hp Hl H.
  pose proof (Hwl _ _ Hl) as Hok. unfold loop_wg_ok in Hok.
  assert (Hd : ∃ wg rest, l_pc l = LDispatch wg rest).
  { destruct (l_pc l); try (by rewrite (Hok _ _ Ht eq_refl) in Hp).
    by eauto. }
  destruct Hd as (wg & rest & Hpc).
  destruct a; step_cases H.
  all: try (rewrite lookup_app_l by (by eapply lookup_lt_Some)).
  all: try by eauto.
  all: match goal with
       | Hj : loops _ !! ?j = Some _ |- context [<[?j := _]> _ !! ?i] =>
           destruct (decide (i = j)) as [Heq | Hne];
           [ rewrite Heq in *; simplify_eq;
             rewrite list_lookup_insert_eq by (by eapply lookup_lt_Some)
           | rewrite list_lookup_insert_ne by done ]
       end.
  all: try (simplify_eq/=; by eauto).
  all: congruence.
Qed.

(** X7.  A dispatch task that reaches its send on [chFatal] after
    [Subscribe] has returned stays there for ever; it keeps its permit
    of the semaphore, its wait group never reaches zero, and its poll
    loop never returns from [wgMessage.Wait()]: the loop makes no
    further [ReceiveMessages] call. *)
Theorem blocked_sender_stalls_its_loop (t : subscriber)
    (sched : list Action) (s : State) (k : nat) (task : Task) (l : Loop)
    (e e' : error) (sched' : list Action) (s' : State) :
  built t → run sched (Subscribe t) = Some s →
  main s = MReturned e →
  tasks s !! k = Some task → sending s (TidTask k) e' →
  loops s !! t_loop task = Some l →
  run sched' s = Some s' →
  tasks s' !! k = Some task ∧
  step (ATaskSend k) s' = None ∧
  (0 < length (chan_buf (semaphore (sub s'))))%nat ∧
  ∃ l', loops s' !! t_loop task = Some l' ∧ l_calls l' = l_calls l ∧
        step (AWait (t_loop task)) s' = None.
Proof.
  intros Hb Hrun Hm Ht Hs Hl Hrun'.
  pose proof (Inv_reachable _ _ _ Hb Hrun) as Hinv. clear Hb Hrun.
  assert (Hpend : pending task = true).
  { destruct Hs as (task' & Ht' & Hpc). simplify_eq. unfold pending.
    by destruct Hpc as [-> | (info & -> & _)]. }
  assert (Hhold : holds_permit task = true).
  { destruct Hs as (task' & Ht' & Hpc). simplify_eq. unfold holds_permit.
    by destruct Hpc as [-> | (info & -> & _)]. }
  assert (Hgo : Inv s' ∧ main s' = MReturned e ∧ tasks s' !! k = Some task ∧
                ∃ l', loops s' !! t_loop task = Some l' ∧
                      l_calls l' = l_calls l).
  { clear Hhold. revert s l Hinv Hm Ht Hs Hl Hrun'.
    induction sched' as [|a sched' IH]; intros s l Hinv Hm Ht Hs Hl Hrun';
      simplify_eq/=.
    - by eauto 10.
    - destruct (step a s) as [s1|] eqn:Hst; [| done].
      pose proof (Inv_step _ _ _ Hinv Hst) as Hinv1.
      destruct (step_after_return _ _ _ _ Hm Hst) as [Hm1 _].
      pose proof (blocked_task_step _ _ _ _ _ _ Hm Ht (ex_intro _ e' Hs) Hst)
        as Ht1.
      pose proof (step_blocked a s s1 e (TidTask k) e' Hm Hs Hst) as Hs1.
      destruct (pending_loop_step _ _ _ _ _ _ Hinv Ht Hpend Hl Hst)
        as (l1 & Hl1 & Hc1).
      destruct (IH _ _ Hinv1 Hm1 Ht1 Hs1 Hl1 Hrun')
        as (Hi' & Hm' & Ht' & l' & Hl' & Hc').
      split; [done |]. split; [done |]. split; [done |].
      exists l'. split; [done | congruence]. }
  destruct Hgo as (Hinv' & Hm' & Ht' & l' & Hl' & Hc').
  split; [done |]. split.
  { unfold step, step_task_send, chFatal_send. rewrite Ht'.
    destruct Hs as (task' & Ht0 & Hpc). simplify_eq.
    destruct Hpc as [-> | (info & -> & _)]; simpl; by rewrite Hm'. }
  destruct Hinv' as ([Hc _] & (Hcnt & _ & Hwl) & _).
  split.
  { rewrite Hc. by eapply count_pos. }
  exists l'. split; [done |]. split; [done |].
  pose proof (Hwl _ _ Hl') as Hok. unfold loop_wg_ok in Hok.
  unfold step, step_wait. rewrite Hl'.
  destruct (l_pc l') as [| | wg rest |];
    try (by rewrite (Hok _ _ Ht' eq_refl) in Hpend).
  destruct Hok as [Hlt Hall].
  destruct rest; [| done].
  destruct (wgs s' !! wg) as [n|] eqn:Hn; [| done].
  pose proof (Hcnt _ _ Hn) as Hcount.
  assert (0 < count (pending_on wg) (tasks s'))%nat.
  { eapply count_pos; [exact Ht' |]. unfold pending_on.
    rewrite Hpend. simpl. apply Nat.eqb_eq. by eapply Hall. }
  destruct n; [lia | done].
Qed.

(** X8.  Registering a queue again replaces its binding: [Subscribe]
    polls the queue with one loop, which holds the handler and the wait
    time of the last accepted [SetHandler] for that name. *)
Theorem last_registration_wins (t : subscriber) (q : string)
    (h1 h2 : option Handler) (o1 o2 : HandlerOption)
    (sched : list Action) (s : State) (i : nat) (l : Loop) :
  built t → 0 ≤ WaitTime o2 →
  run sched (Subscribe (SetHandler q h2 o2 (SetHandler q h1 o1 t).1).1)
    = Some s →
  loops s !! i = Some l → l_queueName l = q →
  l_handler l = {| handler := h2; hoption := o2 |} ∧
  ∀ j l', loops s !! j = Some l' → l_queueName l' = q → j = i.
Proof.
  intros Hb Hw Hrun Hl Hn.
  assert (Hb2 : built (SetHandler q h2 o2 (SetHandler q h1 o1 t).1).1)
    by (by apply built_set, built_set).
  destruct (Inv_reachable _ _ _ Hb2 Hrun)
    as (_ & _ & _ & (_ & Hnd & Hlo & _) & _).
  destruct (run_config _ _ _ Hrun) as (Hh & _). simpl in Hh.
  destruct (Hlo _ _ Hl) as (Hreg & _). rewrite Hh, Hn in Hreg.
  split.
  - unfold SetHandler in Hreg at 1.
    destruct (Z.ltb_spec (WaitTime o2) 0); [lia |]. simpl in Hreg.
    rewrite lookup_insert_eq in Hreg. congruence.
  - intros j l' Hl' Hn'.
    eapply (NoDup_lookup _ j i q Hnd);
      rewrite list_lookup_fmap; [by rewrite Hl'; simpl; f_equal |
                                 by rewrite Hl; simpl; f_equal].
Qed.

(** X17.  The requests behind the report calls of a dispatch task: a
    [ReportFailureMessage] call is made only for a message whose
    handler returned an error, and asks the queue of the task to make
    the message visible again after the registered wait time; a
    [ReportSuccessMessage] call is made only for a message whose
    handler returned nil, and deletes the message from that queue.
    Both return the answer of the service as it is. *)
Theorem reports_reach_the_queue (t : subscriber) (sched : list Action)
    (s : State) (k : nat) (task : Task) (l : Loop) (c : Call) :
  built t → run sched (Subscribe t) = Some s →
  tasks s !! k = Some task → loops s !! t_loop task = Some l →
  c ∈ t_calls task →
  match c with
  | CallReportFailureMessage args ret =>
      (∃ m, handler_result (l_handler l) (t_msg task)
            = Returns (errors_New m)) ∧
      client_ReportFailureMessage args ret =
        (ret, [sqs_ChangeMessageVisibility (l_id l)
                 (ReceiptHandle (t_msg task))
                 (WaitTime (hoption (l_handler l)))])
  | CallReportSuccessMessage args ret =>
      handler_result (l_handler l) (t_msg task) = Returns nil ∧
      client_ReportSuccessMessage args ret =
        (ret, [sqs_DeleteMessage (l_id l) (ReceiptHandle (t_msg task))])
  end.
Proof.
  intros Hb Hrun Ht Hl Hin.
  destruct (Inv_reachable _ _ _ Hb Hrun) as (_ & _ & Hti & _).
  destruct (Hti _ _ Ht) as (l2 & Hl2 & Hok). simplify_eq.
  assert (Hc : ∃ ret, prescribed_report (l_handler l) (l_id l) (t_msg task) ret
                      = Some c).
  { unfold task_ok in Hok.
    destruct (t_pc task); simplify_eq/=.
    1, 2: rewrite Hok in Hin; by apply elem_of_nil in Hin.
    1, 2, 4: destruct Hok as [Hc _]; rewrite Hc in Hin;
      by apply elem_of_nil in Hin.
    - destruct Hok as (_ & c' & Hp & Hc). rewrite Hc in Hin.
      apply list_elem_of_singleton in Hin. subst c'. by eauto.
    - destruct Hok as [(info & _ & Hc) | (r & c' & Hp & Hc)];
        rewrite Hc in Hin; [by apply elem_of_nil in Hin |].
      apply list_elem_of_singleton in Hin. subst c'. by eauto.
    - destruct Hok as [(info & _ & Hc) | (r & c' & Hp & Hc)];
        rewrite Hc in Hin; [by apply elem_of_nil in Hin |].
      apply list_elem_of_singleton in Hin. subst c'. by eauto.
    - destruct Hok as [(info & _ & Hc) | (r & c' & Hp & Hc)];
        rewrite Hc in Hin; [by apply elem_of_nil in Hin |].
      apply list_elem_of_singleton in Hin. subst c'. by eauto. }
  destruct Hc as [ret Hc]. unfold prescribed_report in Hc.
  destruct (handler_result (l_handler l) (t_msg task)) as [[|m]|info];
    simplify_eq/=.
  - split; [done |].
    unfold client_ReportSuccessMessage. simpl. by destruct ret.
  - split; [by eauto |].
    unfold client_ReportFailureMessage. simpl. by destruct ret.
Qed.

(** ** The client of package aws *)

(** X9.  [NewClient] gives a client exactly when the three fields of
    the option are non-empty and the session could be made; otherwise
    it gives no client and a non-nil error, the one of [valid] when a
    field is empty, whatever the session would have answered.  A new
    client has empty caches and free locks. *)
Theorem NewClient_requires_all_fields (opt : ProviderOption) (e : error) :
  (ProviderOption_valid opt = nil ↔
     AWSAccessKey opt ≠ "" ∧ AWSSecretKey opt ≠ "" ∧ AWSRegion opt ≠ "") ∧
  ((∃ c, NewClient opt e = (Some c, nil)) ↔
     AWSAccessKey opt ≠ "" ∧ AWSSecretKey opt ≠ "" ∧ AWSRegion opt ≠ "" ∧
     e = nil) ∧
  (∀ c err, NewClient opt e = (c, err) →
     (c = None ↔ err ≠ nil) ∧
     (ProviderOption_valid opt ≠ nil → err = ProviderOption_valid opt) ∧
     (∀ c', c = Some c' →
        client_opt c' = opt ∧ topics c' = ∅ ∧ queues c' = ∅ ∧
        lock_free (topicsGettingLock c') ∧
        lock_free (queuesGettingLock c'))).
Proof.
  assert (Hv : ProviderOption_valid opt = nil ↔
     AWSAccessKey opt ≠ "" ∧ AWSSecretKey opt ≠ "" ∧ AWSRegion opt ≠ "").
  { unfold ProviderOption_valid.
    destruct (String.eqb_spec (AWSAccessKey opt) "") as [Ha | Ha];
      destruct (String.eqb_spec (AWSSecretKey opt) "") as [Hs | Hs];
      destruct (String.eqb_spec (AWSRegion opt) "") as [Hr | Hr]; simpl;
      split; try done; intros (? & ? & ?); done. }
  split; [done |]. split.
  - unfold NewClient. split.
    + intros [c Hc].
      destruct (ProviderOption_valid opt) eqn:Hval; simplify_eq/=.
      destruct e; simplify_eq/=.
      destruct (proj1 Hv eq_refl) as (? & ? & ?). done.
    + intros (Ha & Hs & Hr & ->).
      rewrite (proj2 Hv (conj Ha (conj Hs Hr))). simpl. by eexists.
  - intros c err Hc. unfold NewClient in Hc.
    destruct (ProviderOption_valid opt) eqn:Hval; simplify_eq/=.
    + destruct e; simplify_eq/=.
      * split; [split; done |]. split; [done |].
        intros c' ?. simplify_eq/=. done.
      * split; [split; done |]. split; [done |]. done.
    + split; [split; done |]. split; [done |]. done.
Qed.

(** X10.  [GetQueueID] on a client whose lock is free never blocks and
    leaves the lock free, also when it panics.  A cached name is
    answered from the cache without a call of the service; otherwise
    [GetQueueUrl] is called once, a URL it gives is cached and
    returned, and an error it gives is returned as it is, with the
    cache unchanged.  The error "There is no queue named" is never
    returned. *)
Theorem GetQueueID_outcomes (name : string)
    (answer : option string * error) (t : client) :
  lock_free (queuesGettingLock t) →
  ∃ t' r calls,
    client_GetQueueID name answer t = Some (t', r, calls) ∧
    lock_free (queuesGettingLock t') ∧
    topics t' = topics t ∧ topicsGettingLock t' = topicsGettingLock t ∧
    client_opt t' = client_opt t ∧
    match queues t !! name with
    | Some id => r = Returned (id, nil) ∧ calls = [] ∧ t' = t
    | None =>
        calls = [sqs_GetQueueUrl name] ∧
        match answer with
        | (Some url, nil) =>
            r = Returned (url, nil) ∧ queues t' = <[name := url]> (queues t)
        | (None, nil) =>
            r = Panicked nil_dereference ∧ queues t' = queues t
        | (_, errors_New m) =>
            r = Returned ("", errors_New m) ∧ queues t' = queues t
        end
    end.
Proof.
  intros [Hbuf Hcap]. unfold client_GetQueueID, GetQueueID_locked.
  destruct (queues t !! name) as [id|] eqn:Hq.
  - eexists _, _, _. by repeat split.
  - unfold chan_send, release, chan_recv. rewrite Hbuf, Hcap. simpl.
    destruct answer as [[url|] [|m]]; simpl.
    + rewrite lookup_insert_eq. eexists _, _, _. by repeat split.
    + eexists _, _, _. by repeat split.
    + eexists _, _, _. by repeat split.
    + eexists _, _, _. by repeat split.
Qed.

Lemma GetQueueID_success name a t t1 id calls :
  client_GetQueueID name a t = Some (t1, Returned (id, nil), calls) →
  queues t1 !! name = Some id ∧
  (∀ other, other ≠ name → queues t1 !! other = queues t !! other) ∧
  (calls = [] ∨ calls = [sqs_GetQueueUrl name]).
Proof.
  unfold client_GetQueueID, GetQueueID_locked. intros H.
  destruct (queues t !! name) as [v|] eqn:Hq.
  { simplify_eq. split; [done |]. split; [done | by left]. }
  destruct (chan_send 1 (queuesGettingLock t)) as [locked|]; [| done].
  destruct a as [[url|] [|m]]; simpl in H.
  - rewrite lookup_insert_eq in H.
    destruct (release locked); simplify_eq/=.
    split; [apply lookup_insert_eq |]. split; [| by right].
    intros other Hne. by rewrite lookup_insert_ne.
  - destruct (release locked); simplify_eq.
  - destruct (release locked); simplify_eq.
  - destruct (release locked); simplify_eq.
Qed.

(** X11.  After a [GetQueueID] that succeeded, asking for the same name
    again gives the same identifier without a call of the service,
    whatever the service would answer, and changes nothing; the entries
    of the other names are those from before. *)
Theorem GetQueueID_cached_after_success (name : string)
    (a1 a2 : option string * error) (t t1 : client) (id : string)
    (calls : list SdkCall) :
  lock_free (queuesGettingLock t) →
  client_GetQueueID name a1 t = Some (t1, Returned (id, nil), calls) →
  client_GetQueueID name a2 t1 = Some (t1, Returned (id, nil), []) ∧
  ∀ other, other ≠ name → queues t1 !! other = queues t !! other.
Proof.
  intros Hfree H1.
  destruct (GetQueueID_success _ _ _ _ _ _ H1) as (Hq & Hother & _).
  split; [| done].
  unfold client_GetQueueID. by rewrite Hq.
Qed.

Lemma strings_Split_nonempty s sep : strings_Split s sep ≠ [].
Proof.
  destruct s as [|c s]; simpl; [done |].
  destruct (Ascii.eqb c sep); [done |].
  by destruct (strings_Split s sep).
Qed.

Lemma last_segment s sep :
  strings_Split s sep !! (length (strings_Split s sep) - 1)%nat
    = last (strings_Split s sep) ∧
  is_Some (last (strings_Split s sep)).
Proof.
  split.
  - rewrite last_lookup. f_equal. lia.
  - destruct (strings_Split s sep) as [|x l] eqn:E.
    + by destruct (strings_Split_nonempty s sep).
    + rewrite last_lookup. apply lookup_lt_is_Some. simpl. lia.
Qed.

Lemma store_topics_spec tps m m' p :
  store_topics tps m = (m', p) →
  p ≠ Some index_out_of_range ∧
  (topics_ok m → topics_ok m') ∧
  (∀ k, is_Some (m !! k) → is_Some (m' !! k)) ∧
  (p = None →
   (∀ arn, Some arn ∈ tps →
           ∃ k, last (strings_Split arn colon) = Some k ∧ is_Some (m' !! k)) ∧
   (∀ k v, m' !! k = Some v →
           m !! k = Some v ∨
           (Some v ∈ tps ∧ last (strings_Split v colon) = Some k))).
Proof.
  revert m. induction tps as [|topic tps IH]; intros m H; simplify_eq/=.
  - split; [done |]. split; [done |]. split; [done |]. intros _. split.
    + intros arn Hin. by apply elem_of_nil in Hin.
    + by left.
  - destruct topic as [arn|]; simplify_eq/=.
    2: { split; [done |]. split; [done |]. split; [done |]. done. }
    destruct (last_segment arn colon) as [Hlk [k Hk]].
    rewrite Hlk, Hk in H.
    destruct (IH _ H) as (Hp & Hok & Hmono & Hfull).
    split; [done |]. split; [| split].
    + intros Hm. apply Hok. intros k' arn' Hl.
      destruct (decide (k' = k)) as [-> | Hne].
      * rewrite lookup_insert_eq in Hl. by simplify_eq.
      * rewrite lookup_insert_ne in Hl by done. by apply Hm.
    + intros k' Hs. apply Hmono.
      destruct (decide (k' = k)) as [-> | Hne].
      * rewrite lookup_insert_eq. by eexists.
      * by rewrite lookup_insert_ne.
    + intros ->. destruct (Hfull eq_refl) as [Hin Hout]. split.
      * intros arn' [Heq | Hin']%elem_of_cons.
        -- simplify_eq. exists k. split; [done |]. apply Hmono.
           rewrite lookup_insert_eq. by eexists.
        -- by apply Hin.
      * intros k' v Hs. destruct (Hout _ _ Hs) as [Hm | (Hin' & Hl')].
        -- destruct (decide (k' = k)) as [-> | Hne].
           ++ rewrite lookup_insert_eq in Hm. simplify_eq.
              right. split; [by left | done].
           ++ left. by rewrite lookup_insert_ne in Hm.
        -- right. split; [by right | done].
Qed.

Lemma list_topics_spec answers tok first m calls0 m' r calls :
  list_topics answers tok first m calls0 = Some (m', r, calls) →
  bool_decide (tok ≠ None) || first = true →
  r ≠ Panicked index_out_of_range ∧
  (topics_ok m → topics_ok m') ∧
  (∀ k, is_Some (m !! k) → is_Some (m' !! k)) ∧
  (r = Returned nil →
   ∃ n resp,
     calls = calls0 ++ sns_ListTopics tok ::
               ((λ a, sns_ListTopics (NextToken a.1)) <$> take n answers) ∧
     answers !! n = Some (resp, nil) ∧ NextToken resp = None ∧
     (∀ j a, (j < n)%nat → answers !! j = Some a →
             a.2 = nil ∧ NextToken a.1 ≠ None) ∧
     (∀ arn, listed (take (S n) answers) arn →
             ∃ k, last (strings_Split arn colon) = Some k ∧ is_Some (m' !! k)) ∧
     (∀ k v, m' !! k = Some v →
             m !! k = Some v ∨
             (listed (take (S n) answers) v ∧
              last (strings_Split v colon) = Some k))).
Proof.
  revert tok first m calls0.
  induction answers as [|[resp err] answers IH];
    intros tok first m calls0 H Hgo; simpl in H; rewrite Hgo in H;
    simpl in H; [done |].
  destruct err as [|msg]; simpl in H.
  2: { simplify_eq. split; [done |]. split; [done |]. split; [done |]. done. }
  destruct (store_topics (Topics resp) m) as [m1 [info|]] eqn:Hst.
  { simplify_eq. destruct (store_topics_spec _ _ _ _ Hst) as (Hp & Hok & Hmono & _).
    split; [congruence |]. split; [done |]. split; [done |]. done. }
  destruct (store_topics_spec _ _ _ _ Hst) as (_ & Hok & Hmono & Hfull).
  destruct (Hfull eq_refl) as [Hin Hout].
  destruct (NextToken resp) as [tok'|] eqn:Htok.
  - assert (Hgo' : bool_decide (Some tok' ≠ None) || false = true)
      by (rewrite bool_decide_eq_true_2; done).
    destruct (IH _ _ _ _ H Hgo') as (Hp & Hok' & Hmono' & Hend).
    split; [done |]. split; [by eauto |]. split; [by eauto |].
    intros ->. destruct (Hend eq_refl)
      as (n & resp' & Hcalls & Hn & Hlast & Hmid & Hin' & Hout').
    exists (S n), resp'. split; [| split; [done | split; [done | split; [| split]]]].
    + rewrite Hcalls. rewrite <- app_assoc. simpl. by rewrite Htok.
    + intros [|j] a Hj Ha; simplify_eq/=.
      * split; [done |]. by rewrite Htok.
      * apply (Hmid j); [lia | done].
    + intros arn (a & Ha & Harn). simpl in Ha.
      apply elem_of_cons in Ha as [-> | Ha].
      * destruct (Hin _ Harn) as (k & Hk & Hs). exists k.
        split; [done |]. by apply Hmono'.
      * apply Hin'. by exists a.
    + intros k v Hs.
      destruct (Hout' _ _ Hs) as [Hm1 | ((a & Ha & Harn) & Hk)].
      * destruct (Hout _ _ Hm1) as [Hm | (Harn & Hk)]; [by left |].
        right. split; [| done]. exists (resp, nil).
        split; [by left | done].
      * right. split; [| done]. exists a. split; [by right | done].
  - destruct answers as [|a answers]; simpl in H; simplify_eq.
    all: split; [done |]; split; [done |]; split; [done |]; intros _.
    all: exists O, resp; simpl.
    all: split; [done |]; split; [done |]; split; [done |].
    all: split; [intros j a' Hj; lia |].
    all: split.
    all: try (intros arn (a' & Ha & Harn);
              apply list_elem_of_singleton in Ha; subst a'; by apply Hin).
    all: intros k v Hs; destruct (Hout _ _ Hs) as [Hm | (Harn & Hk)];
      [by left |]; right; split; [| done];
      exists (resp, nil); split; [by left | done].
Qed.



Lemma list_topics_calls answers tok first m calls0 m' r calls :
  list_topics answers tok first m calls0 = Some (m', r, calls) →
  (∀ c, c ∈ calls0 → ∃ tk, c = sns_ListTopics tk) →
  ∀ c, c ∈ calls → ∃ tk, c = sns_ListTopics tk.
Proof.
  revert tok first m calls0.
  induction answers as [|[resp err] answers IH];
    intros tok first m calls0 H H0; simpl in H.
  - destruct (negb _); by simplify_eq.
  - destruct (negb _); [by simplify_eq |].
    assert (H1 : ∀ c, c ∈ calls0 ++ [sns_ListTopics tok] →
                      ∃ tk, c = sns_ListTopics tk).
    { intros c [Hc | Hc%list_elem_of_singleton]%elem_of_app;
        [by apply H0 | by eexists]. }
    destruct (negb (is_nil err)); [by simplify_eq |].
    destruct (store_topics (Topics resp) m) as [m1 [info|]];
      [by simplify_eq |].
    by eapply IH.
Qed.

Lemma GetTopicID_locked_spec name answers m m' r calls :
  topics_ok m → GetTopicID_locked name answers m = Some (m', r, calls) →
  topics_ok m' ∧
  (∀ arn, r = Returned (arn, nil) →
          last (strings_Split arn colon) = Some name ∧ m' !! name = Some arn) ∧
  r ≠ Panicked index_out_of_range ∧
  (∀ k, is_Some (m !! k) → is_Some (m' !! k)) ∧
  (∀ c, c ∈ calls → ∃ tk, c = sns_ListTopics tk).
Proof.
  intros Hok H. unfold GetTopicID_locked in H.
  destruct (m !! name) as [value|] eqn:Hc.
  { simplify_eq. split; [done |]. split; [| split; [done | split; [done |]]].
    - intros arn ?. simplify_eq. split; [by apply Hok | done].
    - intros c Hin. by apply elem_of_nil in Hin. }
  destruct (list_topics answers None true m [])
    as [[[m1 r0] calls0]|] eqn:Hl; [| done].
  destruct (list_topics_spec _ _ _ _ _ _ _ _ Hl eq_refl)
    as (Hp & Hok' & Hmono & _).
  assert (Hc0 := list_topics_calls _ _ _ _ _ _ _ _ Hl
                   (λ c Hc', False_ind _ (proj1 (elem_of_nil c) Hc'))).
  destruct r0 as [err | info].
  - destruct err as [|msg]; simpl in H.
    + destruct (m1 !! name) as [value|] eqn:Hm; simplify_eq/=.
      * split; [by apply Hok' |]. split; [| done].
        intros arn ?. simplify_eq. split; [by apply Hok' | done].
      * split; [by apply Hok' |]. split; [| done]. intros arn ?. done.
    + simplify_eq/=.
      split; [by apply Hok' |]. split; [| done]. intros arn ?. done.
  - simplify_eq/=.
    split; [by apply Hok' |]. split; [done |]. split; [congruence | done].
Qed.

(** X12.  [GetTopicID] keeps the cache of topics keyed by the last
    segment of the ARN, whatever the service answers: an ARN it returns
    ends in the name asked for; [slice[len(slice)-1]] never panics, as
    [strings.Split] gives at least one segment; and no entry is ever
    removed from the cache, also when a later page fails. *)
Theorem GetTopicID_returns_matching_arn (name : string)
    (answers : list (ListTopicsOutput * error)) (t t' : client)
    (r : Result (string * error)) (calls : list SdkCall) :
  topics_ok (topics t) →
  client_GetTopicID name answers t = Some (t', r, calls) →
  topics_ok (topics t') ∧
  (∀ arn, r = Returned (arn, nil) →
          last (strings_Split arn colon) = Some name ∧
          topics t' !! name = Some arn) ∧
  r ≠ Panicked index_out_of_range ∧
  (∀ k, is_Some (topics t !! k) → is_Some (topics t' !! k)) ∧
  queues t' = queues t.
Proof.
  intros Hok H. unfold client_GetTopicID in H.
  destruct (topics t !! name) as [value|] eqn:Hc.
  { simplify_eq. split; [done |]. split; [| done].
    intros arn ?. simplify_eq. split; [by apply Hok | done]. }
  destruct (chan_send 1 (topicsGettingLock t)) as [locked|]; [| done].
  destruct (GetTopicID_locked name answers (topics t))
    as [[[m r0] calls0]|] eqn:Hl; [| done].
  destruct (GetTopicID_locked_spec _ _ _ _ _ _ Hok Hl)
    as (Hok' & Hret & Hp & Hmono & _).
  destruct (release locked) as [lock|]; simplify_eq/=.
  split; [done |]. split; [done |]. split; [done |]. done.
Qed.


Lemma fill_result_spec msgs i result :
  (i + length msgs ≤ length result)%nat →
  fill_result i msgs result =
    match mapM convert msgs with
    | Some res =>
        Returned (take i result ++ (Some <$> res)
                    ++ drop (i + length msgs) result)
    | None => Panicked nil_dereference
    end.
Proof.
  revert i result. induction msgs as [|msg msgs IH]; intros i result Hlen.
  - simpl. rewrite Nat.add_0_r. by rewrite take_drop.
  - simpl in *.
    destruct (sqs_MessageId msg) as [id|] eqn:Hid.
    2: { assert (Hc : convert msg = None)
           by (unfold convert; by rewrite Hid).
         by rewrite Hc. }
    destruct (sqs_ReceiptHandle msg) as [rh|] eqn:Hrh.
    2: { assert (Hc : convert msg = None)
           by (unfold convert; by rewrite Hid, Hrh).
         by rewrite Hc. }
    assert (Hc : convert msg
                 = Some {| MessageID := id; ReceiptHandle := rh;
                           Body := sqs_Body msg |})
      by (unfold convert; by rewrite Hid, Hrh).
    rewrite Hc. simpl.
    rewrite IH by (rewrite length_insert; lia).
    destruct (mapM convert msgs) as [res|]; simpl; [| done]. f_equal.
    assert (Hi : (i < length result)%nat) by lia.
    destruct (lookup_lt_is_Some_2 _ _ Hi) as [x Hx].
    rewrite (take_S_r (<[i := _]> result) i _)
      by (by apply list_lookup_insert_eq).
    rewrite take_insert_ge by lia.
    rewrite drop_insert_lt by lia.
    rewrite <- app_assoc. simpl. repeat f_equal. lia.
Qed.

(** X14.  [ReceiveMessages] asks the queue of its argument for at most
    10 messages with a wait of 20 seconds.  An error of the service is
    returned with a nil result.  Otherwise the result has one entry per
    message of the answer, in the same order, none of them nil, with
    the identifier, the receipt handle and the body of its message;
    and the call panics exactly when a message of the answer has no
    identifier or no receipt handle. *)
Theorem ReceiveMessages_converts_in_order (args : ReceiveMessagesArgs)
    (msgs : list sqs_Message) (err : error) :
  (client_ReceiveMessages args (msgs, err)).2
    = [sqs_ReceiveMessage (rm_QueueID args) 10 20] ∧
  (err ≠ nil →
     (client_ReceiveMessages args (msgs, err)).1 = Returned (None, err)) ∧
  (err = nil →
     match mapM convert msgs with
     | Some res =>
         (client_ReceiveMessages args (msgs, err)).1
           = Returned (Some (Some <$> res), nil) ∧
         length res = length msgs ∧
         ∀ i msg, msgs !! i = Some msg →
           ∃ m, res !! i = Some m ∧
                sqs_MessageId msg = Some (MessageID m) ∧
                sqs_ReceiptHandle msg = Some (ReceiptHandle m) ∧
                sqs_Body msg = Body m
     | None =>
         (client_ReceiveMessages args (msgs, err)).1
           = Panicked nil_dereference ∧
         ∃ msg, msg ∈ msgs ∧
                (sqs_MessageId msg = None ∨ sqs_ReceiptHandle msg = None)
     end).
Proof.
  unfold client_ReceiveMessages.
  split; [| split].
  - destruct err; simpl; [| done].
    by destruct (fill_result 0 msgs (replicate (length msgs) None)).
  - intros Hne. by destruct err.
  - intros ->. simpl.
    rewrite fill_result_spec by (rewrite length_replicate; lia).
    destruct (mapM convert msgs) as [res|] eqn:Hm.
    + simpl. rewrite drop_ge by (rewrite length_replicate; lia).
      rewrite app_nil_r. split; [done |].
      apply mapM_Some in Hm. split.
      * symmetry. by eapply Forall2_length.
      * intros i msg Hi.
        destruct (Forall2_lookup_l _ _ _ _ _ Hm Hi) as (m & Hr & Hc).
        exists m. split; [done |]. unfold convert in Hc.
        destruct (sqs_MessageId msg); [| done].
        destruct (sqs_ReceiptHandle msg); [| done]. by simplify_eq/=.
    + split; [done |].
      apply mapM_None in Hm. apply Exists_exists in Hm as (msg & Hin & Hc).
      exists msg. split; [done |]. unfold convert in Hc.
      destruct (sqs_MessageId msg); [| by left].
      destruct (sqs_ReceiptHandle msg); [| by right].
      done.
Qed.


(** X16.  [SendMessage] of the publisher resolves a queue once: after a
    [SendMessage] that returned nil, a second one to the same queue
    sends to the same URL without a [GetQueueUrl] call, and returns the
    answer of its [sqs.SendMessage]. *)
Theorem SendMessage_resolves_queue_once (queueName b1 b2 : string)
    (a1 a2 : option string * error) (s2 : error) (t t1 : client)
    (calls1 : list SdkCall) :
  lock_free (queuesGettingLock t) →
  publisher_SendMessage queueName (b1, nil) a1 nil t
    = Some (t1, Returned nil, calls1) →
  ∃ url,
    (calls1 = [sqs_SendMessage url b1] ∨
     calls1 = [sqs_GetQueueUrl queueName; sqs_SendMessage url b1]) ∧
    publisher_SendMessage queueName (b2, nil) a2 s2 t1
      = Some (t1, Returned s2, [sqs_SendMessage url b2]).
Proof.
  intros Hfree H. unfold publisher_SendMessage in H. simpl in H.
  destruct (client_GetQueueID queueName a1 t)
    as [[[t' r] calls]|] eqn:Hg; [| done].
  destruct r as [[id [|msg]]|info]; simpl in H; simplify_eq.
  destruct (GetQueueID_success _ _ _ _ _ _ Hg) as (Hq & _ & Hcalls).
  exists id. split.
  - destruct Hcalls as [-> | ->]; [by left | by right].
  - unfold publisher_SendMessage, client_GetQueueID. simpl.
    by rewrite Hq.
Qed.

(** ** Instances of the further properties *)


Lemma acquire_enabled_below_limit_witness :
  (∃ s', step (AAcquire 0) (final ex_sched_spawned ex_sub) = Some s' ∧
         tasks s' !! 0%nat = Some (task_at THandle (task_at TAcquire ex_nack_task)) ∧
         count holds_permit (tasks s')
           = S (count holds_permit (tasks (final ex_sched_spawned ex_sub)))) ∧
  step (AAcquire 1) (final ex_sched_busy ex_sub) = None.
Proof.
  split.
  - refine (proj1 (acquire_enabled_below_limit ex_sub ex_sched_spawned
                     (final ex_sched_spawned ex_sub) 0
                     (task_at TAcquire ex_nack_task) _ _ _ _) _).
    + apply built_set, built_set,
        (built_new {| ConcurrencyMessageHandleLimit := 1 |}). reflexivity.
    + vm_compute. reflexivity.
    + vm_compute. reflexivity.
    + reflexivity.
    + vm_compute. reflexivity.
  - refine (proj2 (acquire_enabled_below_limit ex_sub ex_sched_busy
                     (final ex_sched_busy ex_sub) 1 ex_busy_task _ _ _ _) _).
    + apply built_set, built_set,
        (built_new {| ConcurrencyMessageHandleLimit := 1 |}). reflexivity.
    + vm_compute. reflexivity.
    + vm_compute. reflexivity.
    + reflexivity.
    + vm_compute. reflexivity.
Defined.

Lemma subscribe_without_handlers_blocks_witness :
  main (Subscribe (ex_new 3)) = MReceiving ∧
  ∀ a, step a (Subscribe (ex_new 3)) = None.
Proof.
  refine (proj2 (proj2 (subscribe_without_handlers_blocks (ex_new 3) []
                          (Subscribe (ex_new 3)) _ _))).
  - reflexivity.
  - reflexivity.
Defined.


Lemma every_queue_gets_one_loop_witness :
  (delete "A" (handlers ex_sub) !! "A" = Some (l_handler ex_started_loop) ∧
   "A" ∉ l_queueName <$> loops (final ex_sched_started ex_sub)) ∨
  (delete "A" (handlers ex_sub) !! "A" = None ∧
   ∃ i l, loops (final ex_sched_started ex_sub) !! i = Some l ∧
          l_queueName l = "A" ∧ l_handler l = l_handler ex_started_loop ∧
          ∀ j l', loops (final ex_sched_started ex_sub) !! j = Some l' →
                  l_queueName l' = "A" → j = i).
Proof.
  refine (every_queue_gets_one_loop ex_sub ex_sched_started
            (final ex_sched_started ex_sub) (delete "A" (handlers ex_sub))
            "A" (l_handler ex_started_loop) _ _ _ _).
  - apply built_set, built_set,
      (built_new {| ConcurrencyMessageHandleLimit := 1 |}). reflexivity.
  - vm_compute. reflexivity.
  - vm_compute. reflexivity.
  - vm_compute. reflexivity.
Defined.

Lemma failed_receive_ends_loop_witness :
  ∃ l', loops (final (ex_sched_started ++
                        [AReceiveMessages 0 [ex_m1] (errors_New "network down");
                         AGetQueueID "B" "urlB" nil; ALoopSend 0]) ex_sub)
          !! 0%nat = Some l' ∧
        loop_stopped (l_pc l') = true ∧
        l_calls l' = [({| rm_QueueID := "urlA" |},
                       ([ex_m1], errors_New "network down"))] ∧
        dispatched 0 (tasks (final (ex_sched_started ++
                        [AReceiveMessages 0 [ex_m1] (errors_New "network down");
                         AGetQueueID "B" "urlB" nil; ALoopSend 0]) ex_sub))
          = [] ∧
        ∀ res' err',
          step (AReceiveMessages 0 res' err')
            (final (ex_sched_started ++
                      [AReceiveMessages 0 [ex_m1] (errors_New "network down");
                       AGetQueueID "B" "urlB" nil; ALoopSend 0]) ex_sub)
          = None.
Proof.
  refine (failed_receive_ends_loop (final ex_sched_started ex_sub) 0
            ex_started_loop [ex_m1] (errors_New "network down")
            [AGetQueueID "B" "urlB" nil; ALoopSend 0]
            (final (ex_sched_started ++
                      [AReceiveMessages 0 [ex_m1] (errors_New "network down");
                       AGetQueueID "B" "urlB" nil; ALoopSend 0]) ex_sub)
            _ _ _ _).
  - vm_compute. reflexivity.
  - reflexivity.
  - discriminate.
  - vm_compute. reflexivity.
Defined.

Lemma blocked_sender_stalls_its_loop_witness :
  tasks (final ex_sched_nil ex_sub_nil) !! 0%nat = Some ex_nil_task ∧
  step (ATaskSend 0) (final ex_sched_nil ex_sub_nil) = None ∧
  (0 < length (chan_buf (semaphore (sub (final ex_sched_nil ex_sub_nil)))))%nat ∧
  ∃ l', loops (final ex_sched_nil ex_sub_nil) !! 1%nat = Some l' ∧
        l_calls l' = l_calls ex_nil_loop ∧
        step (AWait 1) (final ex_sched_nil ex_sub_nil) = None.
Proof.
  refine (blocked_sender_stalls_its_loop ex_sub_nil ex_sched_nil
            (final ex_sched_nil ex_sub_nil) 0 ex_nil_task ex_nil_loop
            (errors_New "network down") (errors_New nil_dereference)
            [] (final ex_sched_nil ex_sub_nil) _ _ _ _ _ _ _).
  - apply built_set, built_set,
      (built_new {| ConcurrencyMessageHandleLimit := 1 |}). reflexivity.
  - vm_compute. reflexivity.
  - vm_compute. reflexivity.
  - vm_compute. reflexivity.
  - exists ex_nil_task. split; [vm_compute; reflexivity |]. right.
    exists nil_dereference. split; reflexivity.
  - vm_compute. reflexivity.
  - reflexivity.
Defined.

Lemma last_registration_wins_witness :
  l_handler ex_started_loop
    = {| handler := Some ex_ok; hoption := {| WaitTime := 0 |} |} ∧
  ∀ j l', loops (final ex_sched_started
                   (SetHandler "A" (Some ex_ok) {| WaitTime := 0 |}
                      (SetHandler "A" (Some ex_reject) {| WaitTime := 30 |}
                         (ex_new 1)).1).1) !! j = Some l' →
          l_queueName l' = "A" → j = 0%nat.
Proof.
  refine (last_registration_wins (ex_new 1) "A" (Some ex_reject) (Some ex_ok)
            {| WaitTime := 30 |} {| WaitTime := 0 |} ex_sched_started
            (final ex_sched_started
               (SetHandler "A" (Some ex_ok) {| WaitTime := 0 |}
                  (SetHandler "A" (Some ex_reject) {| WaitTime := 30 |}
                     (ex_new 1)).1).1) 0 ex_started_loop _ _ _ _ _).
  - apply (built_new {| ConcurrencyMessageHandleLimit := 1 |}). reflexivity.
  - simpl. lia.
  - vm_compute. reflexivity.
  - vm_compute. reflexivity.
  - reflexivity.
Defined.

Lemma GetQueueID_outcomes_witness :
  ∃ t' r calls,
    client_GetQueueID "Queue1" (Some ex_url, nil) ex_client
      = Some (t', r, calls) ∧
    lock_free (queuesGettingLock t') ∧
    topics t' = topics ex_client ∧
    topicsGettingLock t' = topicsGettingLock ex_client ∧
    client_opt t' = client_opt ex_client ∧
    match queues ex_client !! "Queue1" with
    | Some id => r = Returned (id, nil) ∧ calls = [] ∧ t' = ex_client
    | None =>
        calls = [sqs_GetQueueUrl "Queue1"] ∧
        r = Returned (ex_url, nil) ∧
        queues t' = <["Queue1" := ex_url]> (queues ex_client)
    end.
Proof.
  refine (GetQueueID_outcomes "Queue1" (Some ex_url, nil) ex_client _).
  split; reflexivity.
Defined.

Lemma GetQueueID_cached_after_success_witness :
  client_GetQueueID "Queue1" (None, errors_New "unreachable") ex_client_queue
    = Some (ex_client_queue, Returned (ex_url, nil), []) ∧
  ∀ other, other ≠ "Queue1" →
           queues ex_client_queue !! other = queues ex_client !! other.
Proof.
  refine (GetQueueID_cached_after_success "Queue1" (Some ex_url, nil)
            (None, errors_New "unreachable") ex_client ex_client_queue ex_url
            [sqs_GetQueueUrl "Queue1"] _ _).
  - split; reflexivity.
  - vm_compute. reflexivity.
Defined.

Lemma GetTopicID_returns_matching_arn_witness :
  last (strings_Split ex_arn_billing colon) = Some "Billing" ∧
  topics ex_client_topics !! "Billing" = Some ex_arn_billing.
Proof.
  refine (proj1 (proj2
            (GetTopicID_returns_matching_arn "Billing" ex_pages ex_client
               ex_client_topics (Returned (ex_arn_billing, nil))
               [sns_ListTopics None; sns_ListTopics (Some "page2")] _ _))
            ex_arn_billing _).
  - intros k arn Hk. simpl in Hk. by rewrite lookup_empty in Hk.
  - vm_compute. reflexivity.
  - reflexivity.
Defined.



Lemma SendMessage_resolves_queue_once_witness :
  ∃ url,
    ([sqs_GetQueueUrl "Queue1"; sqs_SendMessage ex_url "first"]
       = [sqs_SendMessage url "first"] ∨
     [sqs_GetQueueUrl "Queue1"; sqs_SendMessage ex_url "first"]
       = [sqs_GetQueueUrl "Queue1"; sqs_SendMessage url "first"]) ∧
    publisher_SendMessage "Queue1" ("second", nil)
      (None, errors_New "unreachable") nil ex_client_queue
      = Some (ex_client_queue, Returned nil, [sqs_SendMessage url "second"]).
Proof.
  refine (SendMessage_resolves_queue_once "Queue1" "first" "second"
            (Some ex_url, nil) (None, errors_New "unreachable") nil
            ex_client ex_client_queue
            [sqs_GetQueueUrl "Queue1"; sqs_SendMessage ex_url "first"] _ _).
  - split; reflexivity.
  - vm_compute. reflexivity.
Defined.

Lemma reports_reach_the_queue_witness :
  (handler_result (l_handler ex_ack_loop) ex_m1 = Returns nil ∧
   client_ReportSuccessMessage
     {| rs_QueueID := "urlA"; rs_ReceiptHandle := "r1" |} nil
     = (nil, [sqs_DeleteMessage "urlA" "r1"])) ∧
  ((∃ m, handler_result (l_handler ex_round_loop) ex_m2
         = Returns (errors_New m)) ∧
   client_ReportFailureMessage
     {| rf_QueueID := "urlB"; rf_ReceiptHandle := "r2"; rf_WaitTime := 30 |}
     nil
     = (nil, [sqs_ChangeMessageVisibility "urlB" "r2" 30])).
Proof.
  split.
  - refine (reports_reach_the_queue ex_sub ex_sched_acked
              (final ex_sched_acked ex_sub) 0 ex_acked_task ex_ack_loop
              (CallReportSuccessMessage
                 {| rs_QueueID := "urlA"; rs_ReceiptHandle := "r1" |} nil)
              _ _ _ _ _).
    + apply built_set, built_set,
        (built_new {| ConcurrencyMessageHandleLimit := 1 |}). reflexivity.
    + vm_compute. reflexivity.
    + vm_compute. reflexivity.
    + vm_compute. reflexivity.
    + vm_compute. constructor.
  - refine (reports_reach_the_queue ex_sub ex_sched_round
              (final ex_sched_round ex_sub) 0 ex_round_task ex_round_loop
              (CallReportFailureMessage
                 {| rf_QueueID := "urlB"; rf_ReceiptHandle := "r2";
                    rf_WaitTime := 30 |} nil) _ _ _ _ _).
    + apply built_set, built_set,
        (built_new {| ConcurrencyMessageHandleLimit := 1 |}). reflexivity.
    + vm_compute. reflexivity.
    + vm_compute. reflexivity.
    + vm_compute. reflexivity.
    + vm_compute. constructor.
Defined.
